(** * Columnar encoders of database-internals: run-length and delta encoding

    A shallow embedding of [pkg/rle/rle.go] and [pkg/delta-encoding/de.go],
    followed by the proofs of their testable properties.

    Conventions of the embedding.
    - Go's [int] and [int64] are 64-bit two's-complement integers.  They are
      represented by [Z]; every addition, subtraction, multiplication and
      division of the source goes through [Go.wrap].
    - A method with a pointer receiver is a computation in the monad
      [Go.M S]: it threads the receiver's state and can end in a run-time
      panic (index out of range, division by zero).
    - A loop [for cond { ... }] whose trip count depends on the data is a
      recursive function on a fuel argument, with [OutOfFuel] as the outcome
      of exhausted fuel.  The entry points pass enough fuel for every state
      (lemmas [..._terminates]).
    - The values built by [fmt.Errorf] are represented by the constructor of
      [Go.error] that names the failure, with the formatted argument.
    - A slice held in memory has fewer than [2^61] elements ([addressable]);
      the properties of an append sequence are stated for such sequences. *)

From Stdlib Require Import ZArith String Ascii Bool Lia.
From Stdlib Require Import OrderedTypeEx.
From stdpp Require Import base tactics option list.

Local Open Scope Z_scope.

(* ===================================================================== *)
(** * The Go run time                                                      *)
(* ===================================================================== *)

Module Go.

(** ** 64-bit integers *)

Definition min_int : Z := - 2 ^ 63.
Definition max_int : Z := 2 ^ 63 - 1.

Definition wrap (z : Z) : Z := (z + 2 ^ 63) mod 2 ^ 64 - 2 ^ 63.

Definition in_range (z : Z) : Prop := min_int <= z <= max_int.

Definition add (a b : Z) : Z := wrap (a + b).
Definition sub (a b : Z) : Z := wrap (a - b).
Definition mul (a b : Z) : Z := wrap (a * b).

(** ** Outcomes and the receiver monad *)

Inductive fault : Type :=
| IndexOutOfRange
| DivideByZero.

Inductive outcome (A : Type) : Type :=
| Done (a : A)
| Panic (f : fault)
| OutOfFuel.
Arguments Done {A} a.
Arguments Panic {A} f.
Arguments OutOfFuel {A}.

Definition M (S A : Type) : Type := S -> outcome (A * S).

Definition ret {S A} (a : A) : M S A := fun s => Done (a, s).

Definition bind {S A B} (m : M S A) (k : A -> M S B) : M S B :=
  fun s =>
    match m s with
    | Done (a, s') => k a s'
    | Panic f => Panic f
    | OutOfFuel => OutOfFuel
    end.

Definition get {S} : M S S := fun s => Done (s, s).
Definition modify {S} (f : S -> S) : M S unit := fun s => Done (tt, f s).
Definition panic {S A} (f : fault) : M S A := fun _ => Panic f.
Definition out_of_fuel {S A} : M S A := fun _ => OutOfFuel.

(** ** Slices *)

Definition len {A} (l : list A) : Z := Z.of_nat (length l).

Definition lookupZ {A} (l : list A) (i : Z) : option A :=
  if i <? 0 then None else l !! Z.to_nat i.

(** [l[i]] *)
Definition at_ {S A} (l : list A) (i : Z) : M S A :=
  match lookupZ l i with
  | Some x => ret x
  | None => panic IndexOutOfRange
  end.

(** [l[i] = x], returning the updated slice *)
Definition store {S A} (l : list A) (i : Z) (x : A) : M S (list A) :=
  match lookupZ l i with
  | Some _ => ret (<[Z.to_nat i := x]> l)
  | None => panic IndexOutOfRange
  end.

(** [a / b] and [a % b]: truncated division, panic on a zero divisor *)
Definition quo {S} (a b : Z) : M S Z :=
  if b =? 0 then panic DivideByZero else ret (wrap (Z.quot a b)).
Definition rem {S} (a b : Z) : M S Z :=
  if b =? 0 then panic DivideByZero else ret (wrap (Z.rem a b)).

(** ** Errors built with [fmt.Errorf] *)

Inductive error : Type :=
| RowNotFound (rowID : Z)        (* "row with id %d does not exist" *)
| KeyNotFound (ts : string).     (* "ts %s not found" *)

(** Running a sequence of calls of one method. *)
Fixpoint forEach {S A} (f : A -> M S unit) (l : list A) : M S unit :=
  match l with
  | [] => ret tt
  | x :: l' => bind (f x) (fun _ => forEach f l')
  end.

End Go.

Declare Scope go_scope.
Delimit Scope go_scope with go.
Notation "x <- m ;; k" := (Go.bind m (fun x => k))
  (at level 100, m at next level, k at level 200, right associativity) : go_scope.
Notation "m ;;; k" := (Go.bind m (fun _ => k))
  (at level 100, k at level 200, right associativity) : go_scope.
Notation "a ⊕ b" := (Go.add a b) (at level 50, left associativity) : go_scope.
Notation "a ⊖ b" := (Go.sub a b) (at level 50, left associativity) : go_scope.
Notation "a ⊗ b" := (Go.mul a b) (at level 40, left associativity) : go_scope.
Notation "l @ i" := (Go.at_ l i) (at level 20, no associativity) : go_scope.

Import Go.
Local Open Scope go_scope.

(* ===================================================================== *)
(** * pkg/rle/rle.go                                                       *)
(* ===================================================================== *)

Module rle.

Record Row : Type := { ID : Z; Value : Z; TS : string }.

Record TSRun : Type := { ts : string; count : Z }.

Record RLE : Type := {
  idList : list Z;
  valueList : list Z;
  TSRuns : list TSRun;
  tsRunEnds : list Z   (* end row index of each TS run (inclusive) *)
}.

Definition set_idList (l : list Z) (r : RLE) : RLE :=
  {| idList := l; valueList := valueList r;
     TSRuns := TSRuns r; tsRunEnds := tsRunEnds r |}.
Definition set_valueList (l : list Z) (r : RLE) : RLE :=
  {| idList := idList r; valueList := l;
     TSRuns := TSRuns r; tsRunEnds := tsRunEnds r |}.
Definition set_TSRuns (l : list TSRun) (r : RLE) : RLE :=
  {| idList := idList r; valueList := valueList r;
     TSRuns := l; tsRunEnds := tsRunEnds r |}.
Definition set_tsRunEnds (l : list Z) (r : RLE) : RLE :=
  {| idList := idList r; valueList := valueList r;
     TSRuns := TSRuns r; tsRunEnds := l |}.

Definition InitRLE : RLE :=
  {| idList := []; valueList := []; TSRuns := []; tsRunEnds := [] |}.

(** [Row{}] *)
Definition zeroRow : Row := {| ID := 0; Value := 0; TS := EmptyString |}.

Definition AppendRow (row : Row) : M RLE unit :=
  rle <- get ;;
  modify (set_idList (idList rle ++ [ID row])) ;;;
  modify (set_valueList (valueList rle ++ [Value row])) ;;;
  newRun <- (if len (TSRuns rle) =? 0 then ret true
             else last <- TSRuns rle @ (len (TSRuns rle) ⊖ 1) ;;
                  ret (negb (ts last =? TS row)%string)) ;;
  if newRun : bool then
    modify (set_TSRuns (TSRuns rle ++ [{| ts := TS row; count := 1 |}])) ;;;
    if len (tsRunEnds rle) =? 0 then
      modify (set_tsRunEnds (tsRunEnds rle ++ [1]))
    else
      e <- tsRunEnds rle @ (len (tsRunEnds rle) ⊖ 1) ;;
      modify (set_tsRunEnds (tsRunEnds rle ++ [e ⊕ 1]))
  else
    last <- TSRuns rle @ (len (TSRuns rle) ⊖ 1) ;;
    runs <- store (TSRuns rle) (len (TSRuns rle) ⊖ 1)
                  {| ts := ts last; count := count last ⊕ 1 |} ;;
    modify (set_TSRuns runs) ;;;
    e <- tsRunEnds rle @ (len (tsRunEnds rle) ⊖ 1) ;;
    ends <- store (tsRunEnds rle) (len (tsRunEnds rle) ⊖ 1) (e ⊕ 1) ;;
    modify (set_tsRunEnds ends).

(** The [for _, entry := range rle.TSRuns] loop of [GetTSFromRowID]. *)
Fixpoint scanRuns (runs : list TSRun) (rowID : Z) : string :=
  match runs with
  | [] => EmptyString
  | entry :: rest =>
      if count entry >=? rowID then ts entry
      else scanRuns rest (rowID ⊖ count entry)
  end.

Definition GetTSFromRowID (rowID : Z) : M RLE string :=
  rle <- get ;;
  if (rowID <=? 0) || (rowID >? len (idList rle)) then ret EmptyString
  else ret (scanRuns (TSRuns rle) rowID).

(** The [for low <= high] loop of [GetTSFromRowIDFaster]; yields [low]. *)
Fixpoint searchEnds (fuel : nat) (rowID low high : Z) : M RLE Z :=
  match fuel with
  | O => out_of_fuel
  | S fuel =>
      if low <=? high then
        rle <- get ;;
        mid <- quo (low ⊕ high) 2 ;;
        e <- tsRunEnds rle @ mid ;;
        if e >=? rowID then searchEnds fuel rowID low (mid ⊖ 1)
        else searchEnds fuel rowID (mid ⊕ 1) high
      else ret low
  end.

Definition GetTSFromRowIDFaster (rowID : Z) : M RLE string :=
  rle <- get ;;
  outside <- (if rowID <=? 0 then ret true
              else e <- tsRunEnds rle @ (len (tsRunEnds rle) ⊖ 1) ;;
                   ret (rowID >? e)) ;;
  if outside : bool then ret EmptyString
  else
    low <- searchEnds (S (length (tsRunEnds rle))) rowID 0
                      (len (tsRunEnds rle) ⊖ 1) ;;
    run <- TSRuns rle @ low ;;
    ret (ts run).

Definition ReconstructRow (rowID : Z) : M RLE (Row * option error) :=
  rle <- get ;;
  if (rowID <=? 0) || (rowID >? len (idList rle)) then
    ret (zeroRow, Some (RowNotFound rowID))
  else
    ts <- GetTSFromRowIDFaster rowID ;;
    id <- idList rle @ (rowID ⊖ 1) ;;
    value <- valueList rle @ (rowID ⊖ 1) ;;
    ret ({| ID := id; Value := value; TS := ts |}, None).

(** The [range] loop of [GetCountofTS]. *)
Fixpoint scanCount (runs : list TSRun) (key : string) : Z * option error :=
  match runs with
  | [] => (0, Some (KeyNotFound key))
  | entry :: rest =>
      if (ts entry =? key)%string then (count entry, None)
      else scanCount rest key
  end.

Definition GetCountofTS (key : string) : M RLE (Z * option error) :=
  rle <- get ;;
  ret (scanCount (TSRuns rle) key).

(** The [for low <= high] loop of [GetCountofTSFaster]. *)
Fixpoint searchRuns (fuel : nat) (key : string) (low high : Z)
  : M RLE (Z * option error) :=
  match fuel with
  | O => out_of_fuel
  | S fuel =>
      if low <=? high then
        rle <- get ;;
        mid <- quo (low ⊕ high) 2 ;;
        run <- TSRuns rle @ mid ;;
        if (ts run =? key)%string then ret (count run, None)
        else if (ts run <? key)%string then searchRuns fuel key (mid ⊕ 1) high
        else searchRuns fuel key low (mid ⊖ 1)
      else ret (0, Some (KeyNotFound key))
  end.

Definition GetCountofTSFaster (key : string) : M RLE (Z * option error) :=
  rle <- get ;;
  searchRuns (S (length (TSRuns rle))) key 0 (len (TSRuns rle) ⊖ 1).

End rle.

(* ===================================================================== *)
(** * pkg/delta-encoding/de.go                                             *)
(* ===================================================================== *)

Module delta_encoding.

Record Row : Type := { ID : Z; Value : Z; TS : Z }.

Record DeltaEncoding : Type := {
  idList : list Z;
  deltaValueList : list Z;
  deltaTsList : list Z;
  originalRows : list Row;
  lastValue : Z;
  lastTs : Z;
  checkpointInterval : Z;
  checkpointValues : list Z;   (* absolute values at checkpoints *)
  checkpointTs : list Z        (* absolute ts at checkpoints *)
}.

Definition set_idList (l : list Z) (d : DeltaEncoding) : DeltaEncoding :=
  {| idList := l; deltaValueList := deltaValueList d;
     deltaTsList := deltaTsList d; originalRows := originalRows d;
     lastValue := lastValue d; lastTs := lastTs d;
     checkpointInterval := checkpointInterval d;
     checkpointValues := checkpointValues d;
     checkpointTs := checkpointTs d |}.
Definition set_deltaValueList (l : list Z) (d : DeltaEncoding) : DeltaEncoding :=
  {| idList := idList d; deltaValueList := l;
     deltaTsList := deltaTsList d; originalRows := originalRows d;
     lastValue := lastValue d; lastTs := lastTs d;
     checkpointInterval := checkpointInterval d;
     checkpointValues := checkpointValues d;
     checkpointTs := checkpointTs d |}.
Definition set_deltaTsList (l : list Z) (d : DeltaEncoding) : DeltaEncoding :=
  {| idList := idList d; deltaValueList := deltaValueList d;
     deltaTsList := l; originalRows := originalRows d;
     lastValue := lastValue d; lastTs := lastTs d;
     checkpointInterval := checkpointInterval d;
     checkpointValues := checkpointValues d;
     checkpointTs := checkpointTs d |}.
Definition set_originalRows (l : list Row) (d : DeltaEncoding) : DeltaEncoding :=
  {| idList := idList d; deltaValueList := deltaValueList d;
     deltaTsList := deltaTsList d; originalRows := l;
     lastValue := lastValue d; lastTs := lastTs d;
     checkpointInterval := checkpointInterval d;
     checkpointValues := checkpointValues d;
     checkpointTs := checkpointTs d |}.
Definition set_lastValue (v : Z) (d : DeltaEncoding) : DeltaEncoding :=
  {| idList := idList d; deltaValueList := deltaValueList d;
     deltaTsList := deltaTsList d; originalRows := originalRows d;
     lastValue := v; lastTs := lastTs d;
     checkpointInterval := checkpointInterval d;
     checkpointValues := checkpointValues d;
     checkpointTs := checkpointTs d |}.
Definition set_lastTs (v : Z) (d : DeltaEncoding) : DeltaEncoding :=
  {| idList := idList d; deltaValueList := deltaValueList d;
     deltaTsList := deltaTsList d; originalRows := originalRows d;
     lastValue := lastValue d; lastTs := v;
     checkpointInterval := checkpointInterval d;
     checkpointValues := checkpointValues d;
     checkpointTs := checkpointTs d |}.
Definition set_checkpointValues (l : list Z) (d : DeltaEncoding) : DeltaEncoding :=
  {| idList := idList d; deltaValueList := deltaValueList d;
     deltaTsList := deltaTsList d; originalRows := originalRows d;
     lastValue := lastValue d; lastTs := lastTs d;
     checkpointInterval := checkpointInterval d;
     checkpointValues := l;
     checkpointTs := checkpointTs d |}.
Definition set_checkpointTs (l : list Z) (d : DeltaEncoding) : DeltaEncoding :=
  {| idList := idList d; deltaValueList := deltaValueList d;
     deltaTsList := deltaTsList d; originalRows := originalRows d;
     lastValue := lastValue d; lastTs := lastTs d;
     checkpointInterval := checkpointInterval d;
     checkpointValues := checkpointValues d;
     checkpointTs := l |}.

Definition InitDE : DeltaEncoding :=
  {| idList := []; deltaValueList := []; deltaTsList := [];
     originalRows := [];
     lastValue := 0; lastTs := 0;
     checkpointInterval := 4;
     checkpointValues := []; checkpointTs := [] |}.

(** [Row{}] *)
Definition zeroRow : Row := {| ID := 0; Value := 0; TS := 0 |}.

(** [==] on the struct [Row] *)
Definition Row_eqb (a b : Row) : bool :=
  (ID a =? ID b) && (Value a =? Value b) && (TS a =? TS b).

Definition AppendRow (row : Row) : M DeltaEncoding unit :=
  de <- get ;;
  (if len (idList de) =? 0 then
     modify (set_deltaValueList (deltaValueList de ++ [0])) ;;;
     modify (set_deltaTsList (deltaTsList de ++ [0])) ;;;
     modify (set_checkpointValues (checkpointValues de ++ [Value row])) ;;;
     modify (set_checkpointTs (checkpointTs de ++ [TS row]))
   else
     modify (set_deltaValueList
               (deltaValueList de ++ [Value row ⊖ lastValue de])) ;;;
     modify (set_deltaTsList (deltaTsList de ++ [TS row ⊖ lastTs de]))) ;;;
  modify (set_idList (idList de ++ [ID row])) ;;;
  modify (set_lastValue (Value row)) ;;;
  modify (set_lastTs (TS row)) ;;;
  modify (set_originalRows (originalRows de ++ [row])) ;;;
  (* Checkpoint *)
  de <- get ;;
  r <- rem (len (idList de)) (checkpointInterval de) ;;
  if r =? 0 then
    modify (set_checkpointValues (checkpointValues de ++ [Value row])) ;;;
    modify (set_checkpointTs (checkpointTs de ++ [TS row]))
  else ret tt.

(** The loop [for ind := ...; ind <= rowIndex; ind++] of [ReconstructRow]. *)
Fixpoint addDeltas (fuel : nat) (ind rowIndex : Z) (row : Row)
  : M DeltaEncoding Row :=
  match fuel with
  | O => out_of_fuel
  | S fuel =>
      if ind <=? rowIndex then
        de <- get ;;
        dv <- deltaValueList de @ ind ;;
        dt <- deltaTsList de @ ind ;;
        addDeltas fuel (ind ⊕ 1) rowIndex
          {| ID := ID row; Value := Value row ⊕ dv; TS := TS row ⊕ dt |}
      else ret row
  end.

Definition ReconstructRow (rowID : Z) : M DeltaEncoding (Row * option error) :=
  de <- get ;;
  if (rowID <=? 0) || (rowID >? len (idList de)) then
    ret (zeroRow, Some (RowNotFound rowID))
  else
    (* Optimisation: Using checkpointing to avoid recalculation from the
       base value. *)
    checkpointIndex <- quo (rowID ⊖ 1) (checkpointInterval de) ;;
    value <- checkpointValues de @ checkpointIndex ;;
    ts <- checkpointTs de @ checkpointIndex ;;
    let rowIndex := rowID ⊖ 1 in
    let start := checkpointIndex ⊗ checkpointInterval de in
    row <- addDeltas (S (Z.to_nat (rowIndex - start + 1))) start rowIndex
             {| ID := rowID; Value := value; TS := ts |} ;;
    ret (row, None).

(** The [range de.idList] loop of [ReconstructTable]. *)
Fixpoint reconstructEach (ids : list Z) (rows : list Row)
  : M DeltaEncoding (list Row * option error) :=
  match ids with
  | [] => ret (rows, None)
  | id :: ids =>
      res <- ReconstructRow id ;;
      match res with
      | (_, Some err) => ret ([], Some err)
      | (row, None) => reconstructEach ids (rows ++ [row])
      end
  end.

Definition ReconstructTable : M DeltaEncoding (list Row * option error) :=
  de <- get ;;
  reconstructEach (idList de) [].

(** The [range len(de.originalRows)] loop of
    [VerifyDeltaEncodingCorrectness], with [n] iterations left. *)
Fixpoint compareRows (n : nat) (ind : Z) (deRows : list Row)
  : M DeltaEncoding bool :=
  match n with
  | O => ret true
  | S n =>
      de <- get ;;
      a <- deRows @ ind ;;
      b <- originalRows de @ ind ;;
      if Row_eqb a b then compareRows n (ind ⊕ 1) deRows else ret false
  end.

Definition VerifyDeltaEncodingCorrectness : M DeltaEncoding bool :=
  res <- ReconstructTable ;;
  match res with
  | (_, Some _) => ret false
  | (deRows, None) =>
      de <- get ;;
      compareRows (length (originalRows de)) 0 deRows
  end.

(** *** Size accounting

    [binary.PutVarint(buf, x)] belongs to Go's standard library; the
    repository only uses the number of bytes it reports.  That number is
    the parameter [PutVarint] of the three definitions below. *)
Section Varint.
Variable PutVarint : Z -> Z.

(** The [range data] loop of [varintEncodedSizeGeneric], from [total]. *)
Fixpoint varintSizeFrom (data : list Z) (total : Z) : Z :=
  match data with
  | [] => total
  | v :: rest => varintSizeFrom rest (total ⊕ PutVarint v)
  end.

Definition varintEncodedSizeGeneric (data : list Z) : Z :=
  varintSizeFrom data 0.

(** The [range rows] loop of [binaryEncodedSize], from [total]. *)
Fixpoint binarySizeFrom (rows : list Row) (total : Z) : Z :=
  match rows with
  | [] => total
  | row :: rest =>
      (* Estimate encoded size as if each field was varint-encoded
         separately. *)
      binarySizeFrom rest
        (total ⊕ PutVarint (ID row) ⊕ PutVarint (Value row)
               ⊕ PutVarint (TS row))
  end.

Definition binaryEncodedSize (rows : list Row) : Z :=
  binarySizeFrom rows 0.

(** [PrintStats] yields the three integers it prints: the compressed
    size, the original size and the bytes saved.  The percentage, a
    [float64] division, is not part of the embedding. *)
Definition PrintStats : M DeltaEncoding (Z * Z * Z) :=
  de <- get ;;
  let totalVarintSize :=
    varintEncodedSizeGeneric (idList de)
      ⊕ varintEncodedSizeGeneric (deltaValueList de)
      ⊕ varintEncodedSizeGeneric (deltaTsList de) in
  let orignalSize := binaryEncodedSize (originalRows de) in
  ret (totalVarintSize, orignalSize, orignalSize ⊖ totalVarintSize).
End Varint.

End delta_encoding.

(* ===================================================================== *)
(** * rle/main.go, the first program                                       *)
(* ===================================================================== *)

(** The first program of [rle/main.go] keeps [idList], [valueList],
    [tsRuns] and [tsRunEnds] in package-level variables; the state of the
    program is their record, [rle.RLE].  Its [appendRow], [getCountofTS] and
    [getCountofTSFaster] are, statement for statement, the methods of
    [pkg/rle]; its row lookups use other bounds. *)
Module rle_main.
Import rle.

Definition appendRow (row : Row) : M RLE unit := AppendRow row.

Definition getTSFromRowID (rowID : Z) : M RLE string :=
  g <- get ;;
  if (rowID <? 0) || (rowID >=? len (idList g)) then ret EmptyString
  else ret (scanRuns (TSRuns g) rowID).

Definition getTSFromRowIDFaster (rowID : Z) : M RLE string :=
  g <- get ;;
  outside <- (if rowID <? 0 then ret true
              else e <- tsRunEnds g @ (len (tsRunEnds g) ⊖ 1) ;;
                   ret (rowID >? e)) ;;
  if outside : bool then ret EmptyString
  else
    low <- searchEnds (S (length (tsRunEnds g))) rowID 0
                      (len (tsRunEnds g) ⊖ 1) ;;
    run <- TSRuns g @ low ;;
    ret (ts run).

Definition reconstructRow (rowID : Z) : M RLE Row :=
  g <- get ;;
  if (rowID <? 0) || (rowID >=? len (idList g)) then
    ret {| ID := 0; Value := 0; TS := EmptyString |}
  else
    ts <- getTSFromRowIDFaster rowID ;;
    id <- idList g @ rowID ;;
    value <- valueList g @ rowID ;;
    ret {| ID := id; Value := value; TS := ts |}.

End rle_main.

(* ===================================================================== *)
(** * Specification vocabulary                                             *)
(* ===================================================================== *)

(** A slice that fits in a 64-bit address space: at least eight bytes per
    element leave room for fewer than [2^61] elements. *)
Definition addressable {A} (l : list A) : Prop := len l < 2 ^ 61.

Definition strictlyIncreasing (l : list Z) : Prop :=
  forall (i j : nat) (x y : Z),
    (i < j)%nat -> l !! i = Some x -> l !! j = Some y -> x < y.

Module rle_spec.
Import rle.

(** Number of rows covered by a sequence of runs. *)
Fixpoint total (runs : list TSRun) : Z :=
  match runs with
  | [] => 0
  | r :: rest => count r + total rest
  end.

(** Cumulative row counts of a sequence of runs, starting from [acc]. *)
Fixpoint endsFrom (acc : Z) (runs : list TSRun) : list Z :=
  match runs with
  | [] => []
  | r :: rest => (acc + count r) :: endsFrom (acc + count r) rest
  end.

(** The key column that a sequence of runs stands for. *)
Fixpoint expand (runs : list TSRun) : list string :=
  match runs with
  | [] => []
  | r :: rest => replicate (Z.to_nat (count r)) (ts r) ++ expand rest
  end.

(** Number of keys equal to [key] at the head of a key column. *)
Fixpoint leading (key : string) (keys : list string) : Z :=
  match keys with
  | [] => 0
  | k :: rest => if (k =? key)%string then 1 + leading key rest else 0
  end.

(** Length of the first block of consecutive [key]s of a key column;
    0 when the key does not occur. *)
Fixpoint firstBlock (key : string) (keys : list string) : Z :=
  match keys with
  | [] => 0
  | k :: rest =>
      if (k =? key)%string then 1 + leading key rest else firstBlock key rest
  end.

(** Number of occurrences of [key] in a key column. *)
Fixpoint occurrences (key : string) (keys : list string) : Z :=
  match keys with
  | [] => 0
  | k :: rest => (if (k =? key)%string then 1 else 0) + occurrences key rest
  end.

Definition noAdjacentEqual (runs : list TSRun) : Prop :=
  forall (i : nat) (r1 r2 : TSRun),
    runs !! i = Some r1 -> runs !! S i = Some r2 -> ts r1 <> ts r2.

(** What one append does to the runs. *)
Definition pushRun (runs : list TSRun) (key : string) : list TSRun :=
  match last runs with
  | Some r =>
      if (ts r =? key)%string
      then take (length runs - 1) runs
             ++ [{| ts := ts r; count := count r + 1 |}]
      else runs ++ [{| ts := key; count := 1 |}]
  | None => [{| ts := key; count := 1 |}]
  end.

Record invariant (rle : RLE) : Prop := {
  inv_values : length (valueList rle) = length (idList rle);
  inv_ends : tsRunEnds rle = endsFrom 0 (TSRuns rle);
  inv_counts : Forall (fun r => 1 <= count r) (TSRuns rle);
  inv_total : total (TSRuns rle) = len (idList rle);
  inv_adjacent : noAdjacentEqual (TSRuns rle)
}.

(** The encoder after the calls [AppendRow rows[0]], [AppendRow rows[1]], ... *)
Definition built (rows : list Row) (rle : RLE) : Prop :=
  forEach AppendRow rows InitRLE = Done (tt, rle).

Definition keyPresent (key : string) (rle : RLE) : Prop :=
  exists (i : nat) (r : TSRun), TSRuns rle !! i = Some r /\ ts r = key.

(** Keys increase strictly along the runs (byte-wise order of Go strings). *)
Definition keysIncreasing (runs : list TSRun) : Prop :=
  forall (i j : nat) (r1 r2 : TSRun),
    (i < j)%nat -> runs !! i = Some r1 -> runs !! j = Some r2 ->
    String.compare (ts r1) (ts r2) = Lt.

(** The runs are ordered by key value. *)
Definition keysOrdered (rle : RLE) : Prop :=
  forall (i : nat) (r1 r2 : TSRun),
    TSRuns rle !! i = Some r1 -> TSRuns rle !! S i = Some r2 ->
    (ts r1 <=? ts r2)%string = true.

(** The rows of the package's test, and the encoder they build. *)
Definition testRows : list Row :=
  [ {| ID := 1; Value := 100; TS := "10:00:00" |};
    {| ID := 2; Value := 200; TS := "10:00:00" |};
    {| ID := 3; Value := 300; TS := "10:00:02" |};
    {| ID := 4; Value := 400; TS := "10:00:02" |};
    {| ID := 5; Value := 500; TS := "10:00:02" |};
    {| ID := 6; Value := 600; TS := "10:00:03" |} ].

Definition testRLE : RLE :=
  {| idList := [1; 2; 3; 4; 5; 6];
     valueList := [100; 200; 300; 400; 500; 600];
     TSRuns := [ {| ts := "10:00:00"; count := 2 |};
                 {| ts := "10:00:02"; count := 3 |};
                 {| ts := "10:00:03"; count := 1 |} ];
     tsRunEnds := [2; 5; 6] |}.

(** Three more rows with one new key. *)
Definition moreRows : list Row :=
  [ {| ID := 7; Value := 700; TS := "10:00:04" |};
    {| ID := 8; Value := 800; TS := "10:00:04" |};
    {| ID := 9; Value := 900; TS := "10:00:04" |} ].

(** Rows whose keys do not arrive in sorted order. *)
Definition unsortedRows : list Row :=
  [ {| ID := 1; Value := 10; TS := "b" |};
    {| ID := 2; Value := 20; TS := "a" |};
    {| ID := 3; Value := 30; TS := "c" |} ].

Definition unsortedRLE : RLE :=
  {| idList := [1; 2; 3];
     valueList := [10; 20; 30];
     TSRuns := [ {| ts := "b"; count := 1 |};
                 {| ts := "a"; count := 1 |};
                 {| ts := "c"; count := 1 |} ];
     tsRunEnds := [1; 2; 3] |}.

(** Rows in which a key comes back after other keys. *)
Definition recurringRows : list Row :=
  [ {| ID := 1; Value := 10; TS := "a" |};
    {| ID := 2; Value := 20; TS := "b" |};
    {| ID := 3; Value := 30; TS := "c" |};
    {| ID := 4; Value := 40; TS := "a" |};
    {| ID := 5; Value := 50; TS := "a" |};
    {| ID := 6; Value := 60; TS := "x" |};
    {| ID := 7; Value := 70; TS := "y" |};
    {| ID := 8; Value := 80; TS := "z" |} ].

Definition recurringRLE : RLE :=
  {| idList := [1; 2; 3; 4; 5; 6; 7; 8];
     valueList := [10; 20; 30; 40; 50; 60; 70; 80];
     TSRuns := [ {| ts := "a"; count := 1 |};
                 {| ts := "b"; count := 1 |};
                 {| ts := "c"; count := 1 |};
                 {| ts := "a"; count := 2 |};
                 {| ts := "x"; count := 1 |};
                 {| ts := "y"; count := 1 |};
                 {| ts := "z"; count := 1 |} ];
     tsRunEnds := [1; 2; 3; 5; 6; 7; 8] |}.

End rle_spec.

Module delta_spec.
Import delta_encoding.

(** The encoder after the calls [AppendRow rows[0]], [AppendRow rows[1]], ... *)
Definition built (rows : list Row) (de : DeltaEncoding) : Prop :=
  forEach AppendRow rows InitDE = Done (tt, de).

(** The [int64] fields of a row hold 64-bit values. *)
Definition rowInRange (row : Row) : Prop :=
  in_range (Value row) /\ in_range (TS row).

(** Row ids are 1-based and contiguous: the [i]-th appended row has id [i]. *)
Definition contiguousIds (rows : list Row) : Prop :=
  forall (i : nat) (row : Row), rows !! i = Some row -> ID row = Z.of_nat i + 1.

Definition rowAt (rows : list Row) (i : nat) : Row :=
  default zeroRow (rows !! i).

(** The delta stored for the row of index [i] in the column [f]. *)
Definition deltaAt (f : Row -> Z) (rows : list Row) (i : nat) : Z :=
  match i with
  | O => 0
  | S j => f (rowAt rows i) ⊖ f (rowAt rows j)
  end.

(** The index of the row whose absolute value is checkpoint [g]. *)
Definition checkpointRow (k : Z) (g : nat) : nat :=
  match g with
  | O => O
  | S _ => Z.to_nat (Z.of_nat g * k - 1)
  end.

Definition deltaColumn (f : Row -> Z) (rows : list Row) (ds : list Z) : Prop :=
  length ds = length rows
  /\ forall (i : nat) (d : Z), ds !! i = Some d -> d = deltaAt f rows i.

Definition checkpointColumn (f : Row -> Z) (k : Z) (rows : list Row)
           (cps : list Z) : Prop :=
  len cps = (if decide (rows = []) then 0 else 1 + len rows / k)
  /\ forall (g : nat) (v : Z),
       cps !! g = Some v -> v = f (rowAt rows (checkpointRow k g)).

Record invariant (rows : list Row) (de : DeltaEncoding) : Prop := {
  inv_ids : idList de = map ID rows;
  inv_original : originalRows de = rows;
  inv_interval : 0 < checkpointInterval de;
  inv_last : forall r, last rows = Some r ->
                       lastValue de = Value r /\ lastTs de = TS r;
  inv_deltaValue : deltaColumn Value rows (deltaValueList de);
  inv_deltaTs : deltaColumn TS rows (deltaTsList de);
  inv_checkpointValues :
    checkpointColumn Value (checkpointInterval de) rows (checkpointValues de);
  inv_checkpointTs :
    checkpointColumn TS (checkpointInterval de) rows (checkpointTs de)
}.

(** What the verifier checks for a row of the table: the row that its id
    designates has the same value and timestamp. *)
Definition rowPasses (rows : list Row) (row : Row) : bool :=
  match lookupZ rows (ID row - 1) with
  | Some r => (Value r =? Value row) && (TS r =? TS row)
  | None => false
  end.

(** The deltas of the indices [start .. stop] of a column. *)
Definition window (l : list Z) (start stop : nat) : list Z :=
  take (S stop - start) (drop start l).

(** Bytes that a size function [size] reports for a column. *)
Fixpoint columnBytes (size : Z -> Z) (l : list Z) : Z :=
  match l with
  | [] => 0
  | v :: rest => size v + columnBytes size rest
  end.

(** A byte count to evaluate the size functions with: one byte for
    [-64 .. 63], two bytes otherwise. *)
Definition byteCount (v : Z) : Z :=
  if (-64 <=? v) && (v <? 64) then 1 else 2.

(** The checkpoint position as the specification words it: checkpoint
    [g > 0] is the row of 0-based index [g * checkpointInterval], and
    checkpoint 0 is the row of index 0. *)
Definition checkpointAtMultiple (rows : list Row) (de : DeltaEncoding) : Prop :=
  forall (g : nat) (v t : Z),
    checkpointValues de !! g = Some v -> checkpointTs de !! g = Some t ->
    exists row : Row,
      rows !! (if decide (g = O) then O
               else Z.to_nat (Z.of_nat g * checkpointInterval de)) = Some row
      /\ Value row = v /\ TS row = t.

(** The checkpoint position of the code: checkpoint [g > 0] is the row
    of 0-based index [g * checkpointInterval - 1], the row after which the
    number of appended rows is [g * checkpointInterval]. *)
Definition checkpointBeforeMultiple (rows : list Row) (de : DeltaEncoding) : Prop :=
  forall (g : nat) (v t : Z),
    checkpointValues de !! g = Some v -> checkpointTs de !! g = Some t ->
    exists row : Row,
      rows !! (if decide (g = O) then O
               else Z.to_nat (Z.of_nat g * checkpointInterval de - 1)) = Some row
      /\ Value row = v /\ TS row = t.

(** The rows of the package's test, and the encoder they build. *)
Definition testRows : list Row :=
  [ {| ID := 1; Value := 10; TS := 1000 |};
    {| ID := 2; Value := 20; TS := 1002 |};
    {| ID := 3; Value := 30; TS := 1004 |};
    {| ID := 4; Value := 30; TS := 1006 |};
    {| ID := 5; Value := 20; TS := 1008 |};
    {| ID := 6; Value := 50; TS := 1010 |};
    {| ID := 7; Value := 10; TS := 1012 |};
    {| ID := 8; Value := 15; TS := 1014 |};
    {| ID := 9; Value := 10; TS := 1016 |};
    {| ID := 10; Value := 10; TS := 1018 |} ].

Definition testDE : DeltaEncoding :=
  {| idList := [1; 2; 3; 4; 5; 6; 7; 8; 9; 10];
     deltaValueList := [0; 10; 10; 0; -10; 30; -40; 5; -5; 0];
     deltaTsList := [0; 2; 2; 2; 2; 2; 2; 2; 2; 2];
     originalRows := testRows;
     lastValue := 10;
     lastTs := 1018;
     checkpointInterval := 4;
     checkpointValues := [10; 30; 15];
     checkpointTs := [1000; 1006; 1014] |}.

(** The test's encoder after [de.deltaValueList[2] = 999999]. *)
Definition corruptedDE : DeltaEncoding :=
  set_deltaValueList (<[2%nat := 999999]> (deltaValueList testDE)) testDE.

(** The zero value [DeltaEncoding{}]. *)
Definition zeroDE : DeltaEncoding :=
  {| idList := []; deltaValueList := []; deltaTsList := [];
     originalRows := [];
     lastValue := 0; lastTs := 0;
     checkpointInterval := 0;
     checkpointValues := []; checkpointTs := [] |}.

(** Rows whose ids are not their positions. *)
Definition sparseRows : list Row :=
  [ {| ID := 2; Value := 10; TS := 1000 |};
    {| ID := 7; Value := 20; TS := 1002 |} ].

Definition sparseDE : DeltaEncoding :=
  {| idList := [2; 7];
     deltaValueList := [0; 10];
     deltaTsList := [0; 2];
     originalRows := sparseRows;
     lastValue := 20;
     lastTs := 1002;
     checkpointInterval := 4;
     checkpointValues := [10];
     checkpointTs := [1000] |}.

End delta_spec.

(* ===================================================================== *)
(** * Facts about the run time                                             *)
(* ===================================================================== *)

Section GoFacts.
Context {S : Type}.

Lemma wrap_id z : in_range z -> wrap z = z.
Proof.
  unfold in_range, min_int, max_int, wrap. intros H.
  rewrite Z.mod_small by lia. lia.
Qed.

Lemma add_id a b : in_range (a + b) -> a ⊕ b = a + b.
Proof. apply wrap_id. Qed.

Lemma sub_id a b : in_range (a - b) -> a ⊖ b = a - b.
Proof. apply wrap_id. Qed.

Lemma mul_id a b : in_range (a * b) -> a ⊗ b = a * b.
Proof. apply wrap_id. Qed.

Lemma len_app {A} (l k : list A) : len (l ++ k) = len l + len k.
Proof. unfold len. rewrite length_app. lia. Qed.

Lemma len_nonneg {A} (l : list A) : 0 <= len l.
Proof. unfold len. lia. Qed.

Lemma lookupZ_of_nat {A} (l : list A) (i : nat) :
  lookupZ l (Z.of_nat i) = l !! i.
Proof.
  unfold lookupZ. destruct (Z.ltb_spec (Z.of_nat i) 0); [lia|].
  by rewrite Nat2Z.id.
Qed.

Lemma lookupZ_Some {A} (l : list A) i x :
  lookupZ l i = Some x -> 0 <= i < len l /\ l !! Z.to_nat i = Some x.
Proof.
  unfold lookupZ, len. destruct (Z.ltb_spec i 0); [done|].
  intros H'. split; [|done]. apply lookup_lt_Some in H'. lia.
Qed.

Lemma lookupZ_None {A} (l : list A) i :
  lookupZ l i = None <-> i < 0 \/ len l <= i.
Proof.
  unfold lookupZ, len. destruct (Z.ltb_spec i 0).
  - split; [auto|done].
  - rewrite lookup_ge_None. lia.
Qed.

Lemma lookupZ_last {A} (l : list A) x : lookupZ (l ++ [x]) (len l) = Some x.
Proof.
  unfold len. rewrite lookupZ_of_nat.
  rewrite lookup_app_r by lia. by rewrite Nat.sub_diag.
Qed.

Lemma insert_last {A} (l : list A) x y :
  <[Z.to_nat (len l) := y]> (l ++ [x]) = l ++ [y].
Proof.
  unfold len. rewrite Nat2Z.id.
  rewrite insert_app_r_alt by lia. by rewrite Nat.sub_diag.
Qed.

Lemma at_Some {A} (l : list A) i x (s : S) :
  lookupZ l i = Some x -> (l @ i) s = Done (x, s).
Proof. unfold at_. by intros ->. Qed.

Lemma lookupZ_of_nat_at {A} (l : list A) (i : nat) x (s : S) :
  l !! i = Some x -> (l @ Z.of_nat i) s = Done (x, s).
Proof. intros H. apply at_Some. by rewrite lookupZ_of_nat. Qed.

Lemma at_None {A} (l : list A) i (s : S) :
  lookupZ l i = None -> (l @ i) s = Panic IndexOutOfRange.
Proof. unfold at_. by intros ->. Qed.

Lemma store_Some {A} (l : list A) i x y (s : S) :
  lookupZ l i = Some x -> store l i y s = Done (<[Z.to_nat i := y]> l, s).
Proof. unfold store. by intros ->. Qed.

Lemma quo_pos a b (s : S) :
  0 <= a <= max_int -> 0 < b -> quo a b s = Done (a / b, s).
Proof.
  intros Ha Hb. unfold quo. destruct (Z.eqb_spec b 0); [lia|].
  unfold ret. rewrite Z.quot_div_nonneg by lia.
  rewrite wrap_id; [done|].
  assert (0 <= a / b <= a).
  { split; [apply Z.div_pos; lia|]. apply Z.div_le_upper_bound; nia. }
  unfold in_range, min_int, max_int in *. lia.
Qed.

Lemma rem_pos a b (s : S) :
  0 <= a <= max_int -> 0 < b -> rem a b s = Done (a mod b, s).
Proof.
  intros Ha Hb. unfold rem. destruct (Z.eqb_spec b 0); [lia|].
  unfold ret. rewrite Z.rem_mod_nonneg by lia.
  rewrite wrap_id; [done|].
  pose proof (Z.mod_pos_bound a b Hb). pose proof (Z.mod_le a b).
  unfold in_range, min_int, max_int in *. lia.
Qed.

Lemma forEach_app {A} (f : A -> M S unit) (l k : list A) (s : S) :
  forEach f (l ++ k) s = (forEach f l ;;; forEach f k) s.
Proof.
  revert s. induction l as [|x l IH]; intros s; simpl.
  - done.
  - unfold bind in *. destruct (f x s) as [[[] s']| |]; [|done..].
    apply IH.
Qed.

Lemma forEach_snoc {A} (f : A -> M S unit) (l : list A) (x : A) (s s' : S) :
  forEach f l s = Done (tt, s') -> forEach f (l ++ [x]) s = f x s'.
Proof.
  intros H. rewrite forEach_app. unfold bind at 1. rewrite H. simpl.
  unfold bind, ret. by destruct (f x s') as [[[] ?]| |].
Qed.

End GoFacts.

(* ===================================================================== *)
(** * Run-length encoder: the append path                                  *)
(* ===================================================================== *)

Section RleAppend.
Import rle rle_spec.

Lemma total_app l k : total (l ++ k) = total l + total k.
Proof. induction l as [|r l IH]; simpl; lia. Qed.

Lemma endsFrom_app acc l k :
  endsFrom acc (l ++ k) = endsFrom acc l ++ endsFrom (acc + total l) k.
Proof.
  revert acc. induction l as [|r l IH]; intros acc; simpl.
  - by rewrite Z.add_0_r.
  - rewrite IH. do 3 f_equal. lia.
Qed.

Lemma endsFrom_length acc l : length (endsFrom acc l) = length l.
Proof. revert acc. induction l; intros; simpl; auto. Qed.

Lemma total_ge_len l : Forall (fun r => 1 <= count r) l -> len l <= total l.
Proof.
  unfold len. induction 1 as [|r l Hr _ IH]; simpl; lia.
Qed.

Lemma pushRun_nil key : pushRun [] key = [{| ts := key; count := 1 |}].
Proof. done. Qed.

Lemma pushRun_snoc l r key :
  pushRun (l ++ [r]) key =
    if (ts r =? key)%string
    then l ++ [{| ts := ts r; count := count r + 1 |}]
    else (l ++ [r]) ++ [{| ts := key; count := 1 |}].
Proof.
  unfold pushRun. rewrite last_snoc. destruct (ts r =? key)%string.
  - rewrite length_app. simpl.
    replace (length l + 1 - 1)%nat with (length l) by lia.
    by rewrite take_app_length.
  - done.
Qed.

Lemma noAdjacentEqual_snoc l r r' :
  noAdjacentEqual (l ++ [r]) -> ts r <> ts r' ->
  noAdjacentEqual ((l ++ [r]) ++ [r']).
Proof.
  intros Hl Hne i r1 r2 H1 H2.
  destruct (decide (S i < length (l ++ [r]))%nat) as [Hi|Hi].
  - apply (Hl i r1 r2).
    + rewrite lookup_app_l in H1 by lia. done.
    + rewrite lookup_app_l in H2 by lia. done.
  - rewrite length_app in Hi. simpl in Hi.
    assert (i = length l) as ->.
    { apply lookup_lt_Some in H2. rewrite !length_app in H2. simpl in H2. lia. }
    rewrite lookup_app_l in H1 by (rewrite length_app; simpl; lia).
    rewrite lookup_app_r in H1 by lia. rewrite Nat.sub_diag in H1.
    rewrite lookup_app_r in H2 by (rewrite length_app; simpl; lia).
    rewrite length_app in H2. simpl in H2.
    replace (S (length l) - (length l + 1))%nat with 0%nat in H2 by lia.
    simpl in *. congruence.
Qed.

Lemma noAdjacentEqual_bump l r c :
  noAdjacentEqual (l ++ [r]) ->
  noAdjacentEqual (l ++ [{| ts := ts r; count := c |}]).
Proof.
  intros Hl i r1 r2 H1 H2.
  assert (S i < length l + 1)%nat as Hi.
  { apply lookup_lt_Some in H2. by rewrite length_app in H2. }
  rewrite lookup_app_l in H1 by lia.
  destruct (decide (S i < length l)%nat) as [Hj|Hj].
  - rewrite lookup_app_l in H2 by lia.
    apply (Hl i r1 r2); by rewrite lookup_app_l by lia.
  - assert (S i = length l) as Heq by lia.
    rewrite lookup_app_r in H2 by lia.
    rewrite Heq, Nat.sub_diag in H2. simpl in H2.
    injection H2 as <-. simpl.
    apply (Hl i r1 r); [by rewrite lookup_app_l by lia|].
    rewrite lookup_app_r by lia. by rewrite Heq, Nat.sub_diag.
Qed.

(** One call of [AppendRow] on a state that satisfies the invariant: it
    does not panic, and the new state is described field by field. *)
Lemma rle_AppendRow_effect row rle :
  invariant rle -> len (idList rle) < max_int ->
  exists rle',
    AppendRow row rle = Done (tt, rle')
    /\ idList rle' = idList rle ++ [ID row]
    /\ valueList rle' = valueList rle ++ [Value row]
    /\ TSRuns rle' = pushRun (TSRuns rle) (TS row)
    /\ invariant rle'.
Proof.
  intros [Hv He Hc Ht Ha] Hn.
  destruct rle as [ids vals runs ends]. simpl in *. subst ends.
  pose proof (total_ge_len _ Hc) as Hlen.
  pose proof (len_nonneg runs) as Hlen0.
  destruct runs as [|r l _] using rev_ind.
  - eexists. split; [reflexivity|]. simpl.
    repeat split; simpl; try done.
    + rewrite !length_app. simpl. lia.
    + apply Forall_singleton. simpl. lia.
    + rewrite len_app. simpl in Ht. unfold len at 2. simpl. lia.
  - rewrite endsFrom_app. simpl.
    apply Forall_app in Hc as [Hc Hr].
    rewrite Forall_singleton in Hr.
    rewrite total_app in Ht, Hlen. simpl in Ht, Hlen.
    rewrite len_app in Hlen, Hlen0. change (len [r]) with 1 in *.
    pose proof (total_ge_len _ Hc) as Hlen'.
    pose proof (len_nonneg l) as Hl0.
    assert (Hsub : len (l ++ [r]) ⊖ 1 = len l).
    { rewrite len_app. change (len [r]) with 1.
      rewrite sub_id; [lia|]. unfold in_range, min_int, max_int in *. lia. }
    assert (Hsub' : len (endsFrom 0 l ++ [0 + total l + count r]) ⊖ 1
                    = len (endsFrom 0 l)).
    { rewrite len_app. change (len [_]) with 1.
      rewrite sub_id; [lia|].
      unfold len. rewrite endsFrom_length. fold (len l).
      unfold in_range, min_int, max_int in *. lia. }
    assert (Hz : (len (l ++ [r]) =? 0) = false).
    { apply Z.eqb_neq. rewrite len_app. change (len [r]) with 1. lia. }
    assert (Hz' : (len (endsFrom 0 l ++ [0 + total l + count r]) =? 0) = false).
    { apply Z.eqb_neq. rewrite len_app. change (len [_]) with 1.
      pose proof (len_nonneg (endsFrom 0 l)). lia. }
    rewrite pushRun_snoc.
    unfold AppendRow, bind, get, modify, ret. simpl.
    rewrite Hz, Hsub.
    rewrite (at_Some _ _ r) by apply lookupZ_last. simpl.
    destruct (ts r =? TS row)%string eqn:Heq; simpl.
    + rewrite (at_Some _ _ r) by apply lookupZ_last. simpl.
      rewrite (store_Some _ _ r) by apply lookupZ_last. simpl.
      rewrite Hsub'.
      rewrite (at_Some _ _ (0 + total l + count r)) by apply lookupZ_last.
      simpl.
      rewrite (store_Some _ _ (0 + total l + count r)) by apply lookupZ_last.
      simpl. eexists. split; [reflexivity|]. simpl.
      unfold set_tsRunEnds, set_TSRuns, set_valueList, set_idList. simpl.
      rewrite !insert_last.
      rewrite !add_id by (unfold in_range, min_int, max_int in *; lia).
      repeat split; simpl; try done.
      * rewrite !length_app. simpl. lia.
      * rewrite endsFrom_app. simpl. do 2 f_equal. lia.
      * apply Forall_app. split; [done|]. apply Forall_singleton. simpl. lia.
      * rewrite total_app, len_app. simpl. change (len [_]) with 1. lia.
      * by apply noAdjacentEqual_bump.
    + rewrite Hz', Hsub'.
      rewrite (at_Some _ _ (0 + total l + count r)) by apply lookupZ_last.
      simpl. eexists. split; [reflexivity|]. simpl.
      unfold set_tsRunEnds, set_TSRuns, set_valueList, set_idList. simpl.
      rewrite !add_id by (unfold in_range, min_int, max_int in *; lia).
      repeat split; simpl; try done.
      * rewrite !length_app. simpl. lia.
      * rewrite !endsFrom_app. simpl. rewrite total_app. simpl.
        do 3 f_equal. lia.
      * repeat (apply Forall_app; split); try done.
        all: apply Forall_singleton; simpl; lia.
      * rewrite !total_app, len_app. simpl.
        change (len [_]) with 1. lia.
      * apply noAdjacentEqual_snoc; [done|].
        simpl. by apply String.eqb_neq.
Qed.
End RleAppend.

Section RleBuilt.
Import rle rle_spec.

Lemma InitRLE_invariant : invariant InitRLE.
Proof.
  split; simpl; done.
Qed.

(** Any sequence of appends runs to completion, and the resulting state is
    the columns of the rows next to their runs. *)
Lemma built_state rows :
  len rows <= max_int ->
  exists rle,
    built rows rle
    /\ invariant rle
    /\ idList rle = map ID rows
    /\ valueList rle = map Value rows
    /\ TSRuns rle = foldl pushRun [] (map TS rows).
Proof.
  induction rows as [|row rows IH] using rev_ind; intros Hn.
  - exists InitRLE. split; [done|]. split; [apply InitRLE_invariant|done].
  - rewrite len_app in Hn. change (len [row]) with 1 in Hn.
    destruct IH as (rle & Hb & Hi & Hids & Hvals & Hruns); [lia|].
    destruct (rle_AppendRow_effect row rle Hi) as (rle' & Hrun & ? & ? & ? & ?).
    { rewrite Hids. unfold len in *. rewrite length_map. lia. }
    exists rle'. unfold built. rewrite (forEach_snoc _ _ _ _ _ Hb).
    split; [done|]. split; [done|].
    rewrite !map_app, foldl_app. simpl. by rewrite <- Hids, <- Hvals, <- Hruns.
Qed.

Lemma built_unique rows rle1 rle2 :
  built rows rle1 -> built rows rle2 -> rle1 = rle2.
Proof. unfold built. congruence. Qed.

Lemma endsFrom_lookup acc runs (i : nat) :
  (i < length runs)%nat ->
  endsFrom acc runs !! i = Some (acc + total (take (S i) runs)).
Proof.
  revert acc i. induction runs as [|r runs IH]; intros acc i Hi; simpl in *.
  - lia.
  - destruct i as [|i]; simpl.
    + f_equal. destruct runs; simpl; lia.
    + rewrite IH by lia. f_equal. simpl. lia.
Qed.

Lemma endsFrom_lookup_inv acc runs (i : nat) x :
  endsFrom acc runs !! i = Some x ->
  (i < length runs)%nat /\ x = acc + total (take (S i) runs).
Proof.
  intros H. assert (i < length runs)%nat as Hi.
  { apply lookup_lt_Some in H. by rewrite endsFrom_length in H. }
  rewrite endsFrom_lookup in H by done. split; [done|congruence].
Qed.

Lemma total_take_S runs (i : nat) r :
  runs !! i = Some r -> total (take (S i) runs) = total (take i runs) + count r.
Proof.
  intros H. rewrite (take_S_r _ _ _ H), total_app. simpl. lia.
Qed.

Lemma total_take_lt runs (i j : nat) :
  Forall (fun r => 1 <= count r) runs ->
  (i < j)%nat -> (j <= length runs)%nat ->
  total (take i runs) < total (take j runs).
Proof.
  intros Hc Hij Hj. induction j as [|j IH]; [lia|].
  destruct (lookup_lt_is_Some_2 runs j) as [r Hr]; [lia|].
  rewrite (total_take_S _ _ _ Hr).
  assert (1 <= count r).
  { rewrite Forall_lookup in Hc. by apply (Hc j). }
  destruct (decide (i = j)) as [->|]; [lia|].
  specialize (IH ltac:(lia) ltac:(lia)). lia.
Qed.

Lemma total_take_le runs (i j : nat) :
  Forall (fun r => 1 <= count r) runs ->
  (i <= j)%nat -> (j <= length runs)%nat ->
  total (take i runs) <= total (take j runs).
Proof.
  intros Hc Hij Hj. destruct (decide (i = j)) as [->|]; [lia|].
  pose proof (total_take_lt runs i j Hc). lia.
Qed.

Lemma total_take_all runs : total (take (length runs) runs) = total runs.
Proof. by rewrite firstn_all. Qed.

Lemma invariant_ends_increasing rle :
  invariant rle -> strictlyIncreasing (tsRunEnds rle).
Proof.
  intros [_ He Hc _ _] i j x y Hij Hx Hy. rewrite He in Hx, Hy.
  apply endsFrom_lookup_inv in Hx as [Hi ->].
  apply endsFrom_lookup_inv in Hy as [Hj ->].
  pose proof (total_take_lt (TSRuns rle) (S i) (S j) Hc). lia.
Qed.

Lemma invariant_last_end rle :
  invariant rle -> idList rle <> [] ->
  last (tsRunEnds rle) = Some (len (idList rle)).
Proof.
  intros [_ He Hc Ht _] Hne. rewrite He, <- Ht.
  destruct (TSRuns rle) as [|r l _] using rev_ind.
  - simpl in Ht. destruct (idList rle); [done|]. unfold len in Ht. simpl in Ht. lia.
  - rewrite endsFrom_app. simpl. rewrite last_snoc, total_app. simpl.
    f_equal. lia.
Qed.

Lemma pushRun_fresh runs key :
  (forall r, last runs = Some r -> ts r <> key) ->
  pushRun runs key = runs ++ [{| ts := key; count := 1 |}].
Proof.
  intros H. unfold pushRun. destruct (last runs) as [r|] eqn:Hl.
  - specialize (H r eq_refl). apply String.eqb_neq in H. by rewrite H.
  - apply last_None in Hl. by subst.
Qed.

(** Appending [k >= 1] equal keys after a run with another key (or to an
    empty encoder) adds one run of count [k]. *)
Lemma pushRun_same runs key keys :
  keys <> [] -> Forall (fun k => k = key) keys ->
  (forall r, last runs = Some r -> ts r <> key) ->
  foldl pushRun runs keys = runs ++ [{| ts := key; count := len keys |}].
Proof.
  intros Hne Hall Hlast.
  induction keys as [|k keys IH] using rev_ind; [done|].
  apply Forall_app in Hall as [Hall Hk]. rewrite Forall_singleton in Hk. subst k.
  rewrite foldl_app. simpl. rewrite len_app. change (len [key]) with 1.
  destruct keys as [|k0 keys0].
  - simpl. by apply pushRun_fresh.
  - rewrite IH by done. rewrite pushRun_snoc. simpl.
    by rewrite String.eqb_refl.
Qed.
End RleBuilt.

(* ===================================================================== *)
(** * Run-length encoder: row id to key                                    *)
(* ===================================================================== *)

Section RleLookup.
Import rle rle_spec.

(** The linear scan stops in the run that contains the row. *)
Lemma scanRuns_index runs rowID :
  Forall (fun r => 1 <= count r) runs ->
  1 <= rowID <= total runs -> total runs <= max_int ->
  exists (i : nat) (r : TSRun),
    runs !! i = Some r
    /\ scanRuns runs rowID = ts r
    /\ total (take i runs) < rowID <= total (take (S i) runs).
Proof.
  revert rowID. induction runs as [|r runs IH]; intros rowID Hc Hrow Hmax.
  - simpl in Hrow. lia.
  - apply Forall_cons in Hc as [Hr Hc]. simpl in Hrow, Hmax. simpl.
    destruct (Z.geb_spec (count r) rowID) as [Hge|Hlt].
    + exists 0%nat, r. split; [done|]. split; [done|].
      destruct runs; simpl; lia.
    + assert (0 <= total runs).
      { pose proof (total_ge_len _ Hc). pose proof (len_nonneg runs). lia. }
      rewrite sub_id by (unfold in_range, min_int, max_int in *; lia).
      destruct (IH (rowID - count r)) as (i & r' & Hi & Hs & Hb);
        [done|lia|lia|].
      exists (S i), r'. split; [done|]. split; [done|].
      change (take (S (S i)) (r :: runs)) with (r :: take (S i) runs).
      change (take (S i) (r :: runs)) with (r :: take i runs).
      simpl total. lia.
Qed.

(** The binary search over [tsRunEnds] ends at the first offset that is
    at least [rowID]. *)
Lemma searchEnds_spec fuel rowID low high rle :
  (forall (i j : nat) x y, (i <= j)%nat ->
      tsRunEnds rle !! i = Some x -> tsRunEnds rle !! j = Some y -> x <= y) ->
  addressable (tsRunEnds rle) ->
  0 <= low -> high < len (tsRunEnds rle) -> low <= high + 1 ->
  (forall (i : nat) x, Z.of_nat i < low ->
      tsRunEnds rle !! i = Some x -> x < rowID) ->
  (forall (i : nat) x, high < Z.of_nat i ->
      tsRunEnds rle !! i = Some x -> rowID <= x) ->
  (Z.to_nat (high - low + 1) < fuel)%nat ->
  exists (k : nat),
    searchEnds fuel rowID low high rle = Done (Z.of_nat k, rle)
    /\ low <= Z.of_nat k <= high + 1
    /\ (forall (i : nat) x, (i < k)%nat ->
          tsRunEnds rle !! i = Some x -> x < rowID)
    /\ (forall (i : nat) x, (k <= i)%nat ->
          tsRunEnds rle !! i = Some x -> rowID <= x).
Proof.
  intros Hmono Haddr. unfold addressable in Haddr.
  revert low high.
  induction fuel as [|fuel IH]; intros low high Hlow Hhigh Hlh Hbelow Habove Hfuel;
    [lia|].
  simpl. destruct (Z.leb_spec low high) as [Hle|Hgt].
  - unfold bind, get.
    assert (Hsum : low ⊕ high = low + high).
    { apply add_id. unfold in_range, min_int, max_int. lia. }
    rewrite Hsum, quo_pos by (unfold max_int; lia).
    set (mid := (low + high) / 2).
    assert (Hmid : low <= mid <= high).
    { subst mid. split.
      - apply Z.div_le_lower_bound; lia.
      - apply Z.div_le_upper_bound; lia. }
    destruct (lookupZ (tsRunEnds rle) mid) as [e|] eqn:He.
    2:{ apply lookupZ_None in He. lia. }
    rewrite (at_Some _ _ _ _ He).
    apply lookupZ_Some in He as [_ He].
    rewrite sub_id, add_id by (unfold in_range, min_int, max_int; lia).
    destruct (Z.geb_spec e rowID) as [Hge|Hlt].
    + destruct (IH low (mid - 1)) as (k & Hk & Hkb & Hk1 & Hk2); try lia.
      * done.
      * intros i x Hi Hx. apply Z.le_trans with e; [lia|].
        apply (Hmono (Z.to_nat mid) i); [lia|done..].
      * exists k. split; [done|]. split; [lia|done].
    + destruct (IH (mid + 1) high) as (k & Hk & Hkb & Hk1 & Hk2); try lia.
      * intros i x Hi Hx. apply Z.le_lt_trans with e; [|lia].
        apply (Hmono i (Z.to_nat mid)); [lia|done..].
      * done.
      * exists k. split; [done|]. split; [lia|done].
  - assert (low = high + 1) as -> by lia.
    exists (Z.to_nat (high + 1)). rewrite Z2Nat.id by lia.
    split; [done|]. split; [lia|]. split.
    + intros i x Hi. apply Hbelow. lia.
    + intros i x Hi. apply Habove. lia.
Qed.

(** Both strategies, run on a state that satisfies the invariant. *)
Lemma lookup_strategies_agree rle rowID :
  invariant rle -> addressable (idList rle) ->
  1 <= rowID <= len (idList rle) ->
  exists (i : nat) (r : TSRun),
    TSRuns rle !! i = Some r
    /\ total (take i (TSRuns rle)) < rowID <= total (take (S i) (TSRuns rle))
    /\ GetTSFromRowID rowID rle = Done (ts r, rle)
    /\ GetTSFromRowIDFaster rowID rle = Done (ts r, rle).
Proof.
  intros Hinv Haddr Hrow. pose proof Hinv as [Hv He Hc Ht Hadj].
  unfold addressable in Haddr.
  pose proof (total_ge_len _ Hc) as Hlen.
  pose proof (len_nonneg (TSRuns rle)) as Hlen0.
  destruct (scanRuns_index (TSRuns rle) rowID Hc) as (i & r & Hi & Hscan & Hb);
    [lia|unfold max_int; lia|].
  exists i, r. split; [done|]. split; [done|]. split.
  - unfold GetTSFromRowID, bind, get, ret.
    destruct (Z.leb_spec rowID 0); [lia|].
    destruct (Z.gtb_spec rowID (len (idList rle))); [lia|].
    simpl. by rewrite Hscan.
  - assert (Hlenends : len (tsRunEnds rle) = len (TSRuns rle)).
    { unfold len. by rewrite He, endsFrom_length. }
    assert (Hpos : 0 < len (TSRuns rle)).
    { destruct (TSRuns rle); [simpl in Ht; lia|]. unfold len. simpl. lia. }
    assert (Hlast : lookupZ (tsRunEnds rle) (len (tsRunEnds rle) - 1)
                    = Some (len (idList rle))).
    { unfold lookupZ. destruct (Z.ltb_spec (len (tsRunEnds rle) - 1) 0); [lia|].
      assert (Hidx : S (Z.to_nat (len (tsRunEnds rle) - 1))
                     = length (TSRuns rle)) by (unfold len in *; lia).
      rewrite He at 2. rewrite endsFrom_lookup by (unfold len in *; lia).
      rewrite Hidx, total_take_all, Ht. done. }
    unfold GetTSFromRowIDFaster, bind, get, ret.
    destruct (Z.leb_spec rowID 0); [lia|].
    rewrite sub_id by (unfold in_range, min_int, max_int; lia).
    rewrite (at_Some _ _ _ _ Hlast).
    destruct (Z.gtb_spec rowID (len (idList rle))); [lia|].
    destruct (searchEnds_spec (S (length (tsRunEnds rle))) rowID 0
                (len (tsRunEnds rle) - 1) rle)
      as (k & Hk & Hkb & Hk1 & Hk2).
    + intros a b x y Hab Hx Hy. rewrite He in Hx, Hy.
      apply endsFrom_lookup_inv in Hx as [Ha ->].
      apply endsFrom_lookup_inv in Hy as [Hb' ->].
      pose proof (total_take_le (TSRuns rle) (S a) (S b) Hc). lia.
    + unfold addressable. lia.
    + lia.
    + lia.
    + lia.
    + intros a x Ha. lia.
    + intros a x Ha Hx. apply lookup_lt_Some in Hx. unfold len in Ha. lia.
    + unfold len. lia.
    + rewrite Hk.
      assert (k = i) as ->.
      { assert (Hil : (i < length (TSRuns rle))%nat) by by apply lookup_lt_Some in Hi.
        destruct (Nat.lt_trichotomy k i) as [Hlt|[->|Hgt]]; [|done|].
        - exfalso.
          assert (Hkx : tsRunEnds rle !! k
                        = Some (0 + total (take (S k) (TSRuns rle)))).
          { rewrite He. apply endsFrom_lookup. lia. }
          specialize (Hk2 k _ (Nat.le_refl k) Hkx).
          pose proof (total_take_le (TSRuns rle) (S k) i Hc). lia.
        - exfalso.
          assert (Hix : tsRunEnds rle !! i
                        = Some (0 + total (take (S i) (TSRuns rle)))).
          { rewrite He. by apply endsFrom_lookup. }
          specialize (Hk1 i _ Hgt Hix). lia. }
      rewrite lookupZ_of_nat_at with (x := r) by done. done.
Qed.
End RleLookup.

(* ===================================================================== *)
(** * Run-length encoder: the runs stand for the key column                *)
(* ===================================================================== *)

Section RleExpand.
Import rle rle_spec.

Lemma expand_app l k : expand (l ++ k) = expand l ++ expand k.
Proof. induction l as [|r l IH]; simpl; [done|]. by rewrite IH, app_assoc. Qed.

Lemma pushRun_counts runs key :
  Forall (fun r => 1 <= count r) runs ->
  Forall (fun r => 1 <= count r) (pushRun runs key).
Proof.
  intros Hc. destruct runs as [|r l _] using rev_ind.
  - rewrite pushRun_nil. by apply Forall_singleton.
  - rewrite pushRun_snoc. apply Forall_app in Hc as [Hl Hr].
    rewrite Forall_singleton in Hr.
    destruct (ts r =? key)%string.
    + apply Forall_app. split; [done|]. apply Forall_singleton. simpl. lia.
    + repeat (apply Forall_app; split); try done; by apply Forall_singleton.
Qed.

Lemma expand_pushRun runs key :
  Forall (fun r => 1 <= count r) runs ->
  expand (pushRun runs key) = expand runs ++ [key].
Proof.
  intros Hc. destruct runs as [|r l _] using rev_ind; [done|].
  rewrite pushRun_snoc. apply Forall_app in Hc as [_ Hr].
  rewrite Forall_singleton in Hr.
  destruct (String.eqb_spec (ts r) key) as [<-|_].
  - rewrite !expand_app. simpl. rewrite !app_nil_r, <- app_assoc. f_equal.
    replace (Z.to_nat (count r + 1)) with (S (Z.to_nat (count r))) by lia.
    apply replicate_S_end.
  - by rewrite expand_app.
Qed.

Lemma expand_foldl_pushRun keys :
  Forall (fun r => 1 <= count r) (foldl pushRun [] keys)
  /\ expand (foldl pushRun [] keys) = keys.
Proof.
  induction keys as [|k keys [IHc IHe]] using rev_ind; [done|].
  rewrite foldl_app. simpl. split; [by apply pushRun_counts|].
  by rewrite expand_pushRun, IHe.
Qed.

(** The run that covers the row number [rowID] carries the key at
    position [rowID - 1] of the column. *)
Lemma expand_lookup runs (i : nat) r rowID :
  Forall (fun r => 1 <= count r) runs -> runs !! i = Some r ->
  total (take i runs) < rowID <= total (take (S i) runs) ->
  expand runs !! Z.to_nat (rowID - 1) = Some (ts r).
Proof.
  revert i rowID. induction runs as [|r0 runs IH]; intros i rowID Hc Hr Hb; [done|].
  apply Forall_cons in Hc as [Hr0 Hc]. simpl.
  destruct i as [|i]; simpl in Hr.
  - injection Hr as ->.
    change (take 1 (r :: runs)) with (r :: take 0 runs) in Hb.
    rewrite take_0 in Hb. simpl in Hb.
    rewrite lookup_app_l by (rewrite length_replicate; lia).
    apply lookup_replicate_2. lia.
  - change (take (S (S i)) (r0 :: runs)) with (r0 :: take (S i) runs) in Hb.
    change (take (S i) (r0 :: runs)) with (r0 :: take i runs) in Hb.
    simpl total in Hb.
    assert (0 <= total (take i runs)).
    { pose proof (total_ge_len (take i runs)) as Hl.
      pose proof (len_nonneg (take i runs)).
      specialize (Hl ltac:(by apply Forall_take)). lia. }
    rewrite lookup_app_r by (rewrite length_replicate; lia).
    rewrite length_replicate.
    replace (Z.to_nat (rowID - 1) - Z.to_nat (count r0))%nat
      with (Z.to_nat (rowID - count r0 - 1)) by lia.
    apply (IH i); [done..|lia].
Qed.

(** Both lookups return the key of the row, and [ReconstructRow] the row
    itself. *)
Lemma rle_round_trip rows rle (i : nat) row :
  addressable rows -> built rows rle -> rows !! i = Some row ->
  GetTSFromRowID (Z.of_nat i + 1) rle = Done (TS row, rle)
  /\ GetTSFromRowIDFaster (Z.of_nat i + 1) rle = Done (TS row, rle)
  /\ ReconstructRow (Z.of_nat i + 1) rle = Done ((row, None), rle).
Proof.
  intros Haddr Hb Hrow. unfold addressable in Haddr.
  destruct (built_state rows) as (rle' & Hb' & Hinv & Hids & Hvals & Hruns);
    [unfold max_int; lia|].
  rewrite (built_unique _ _ _ Hb Hb').
  assert (Hi : (i < length rows)%nat) by by apply lookup_lt_Some in Hrow.
  assert (Hlen : len (idList rle') = len rows).
  { rewrite Hids. unfold len. by rewrite length_map. }
  destruct (lookup_strategies_agree rle' (Z.of_nat i + 1) Hinv)
    as (j & r & Hj & Hbound & Hslow & Hfast).
  { unfold addressable. by rewrite Hlen. }
  { rewrite Hlen. unfold len. lia. }
  destruct (expand_foldl_pushRun (map TS rows)) as [Hc Hexp].
  rewrite <- Hruns in Hc, Hexp.
  pose proof (expand_lookup _ j r _ Hc Hj Hbound) as Hkey.
  replace (Z.to_nat (Z.of_nat i + 1 - 1)) with i in Hkey by lia.
  rewrite Hexp, list_lookup_fmap, Hrow in Hkey. injection Hkey as Hkey.
  rewrite <- Hkey in Hslow, Hfast. split; [done|]. split; [done|].
  unfold ReconstructRow. unfold bind at 1, get.
  destruct (Z.leb_spec (Z.of_nat i + 1) 0); [lia|].
  destruct (Z.gtb_spec (Z.of_nat i + 1) (len (idList rle'))) as [Hgt|_].
  { rewrite Hlen in Hgt. unfold len in Hgt. lia. }
  cbn [orb]. unfold bind at 1. rewrite Hfast.
  rewrite sub_id by (unfold in_range, min_int, max_int, len in *; lia).
  replace (Z.of_nat i + 1 - 1) with (Z.of_nat i) by lia.
  unfold bind at 1.
  rewrite (lookupZ_of_nat_at _ _ (ID row))
    by (by rewrite Hids, list_lookup_fmap, Hrow).
  unfold bind.
  rewrite (lookupZ_of_nat_at _ _ (Value row))
    by (by rewrite Hvals, list_lookup_fmap, Hrow).
  by destruct row.
Qed.
End RleExpand.

(* ===================================================================== *)
(** * Run-length encoder: count by key                                     *)
(* ===================================================================== *)

Section StringOrder.

Lemma compare_lt_trans (a b c : string) :
  String.compare a b = Lt -> String.compare b c = Lt -> String.compare a c = Lt.
Proof.
  intros Hab Hbc. apply String_as_OT.cmp_lt.
  apply String_as_OT.lt_trans with b; by apply String_as_OT.cmp_lt.
Qed.

Lemma compare_lt_neq (a b : string) : String.compare a b = Lt -> a <> b.
Proof.
  intros H ->. pose proof (String.compare_antisym b b) as Ha.
  rewrite H in Ha. done.
Qed.

Lemma compare_lt_asym (a b : string) :
  String.compare a b = Lt -> String.compare b a = Lt -> False.
Proof. intros H1 H2. rewrite String.compare_antisym, H2 in H1. done. Qed.

Lemma ltb_compare (a b : string) : (a <? b)%string = true <-> String.compare a b = Lt.
Proof. unfold String.ltb. destruct (String.compare a b); split; done. Qed.

Lemma leb_neq_compare (a b : string) :
  (a <=? b)%string = true -> a <> b -> String.compare a b = Lt.
Proof.
  unfold String.leb. intros H Hne.
  destruct (String.compare a b) eqn:Hc; [|done..].
  by apply String.compare_eq_iff in Hc.
Qed.

Lemma compare_total (a b : string) :
  a <> b -> String.compare a b <> Lt -> String.compare b a = Lt.
Proof.
  intros Hne Hn. rewrite String.compare_antisym.
  destruct (String.compare a b) eqn:Hc; [|done..].
  by apply String.compare_eq_iff in Hc.
Qed.

End StringOrder.

Section RleCount.
Import rle rle_spec.

Lemma keysIncreasing_of_adjacent runs :
  (forall (i : nat) r1 r2, runs !! i = Some r1 -> runs !! S i = Some r2 ->
      String.compare (ts r1) (ts r2) = Lt) ->
  keysIncreasing runs.
Proof.
  intros Hadj i j r1 r2 Hij. revert r2.
  induction j as [|j IH]; intros r2 H1 H2; [lia|].
  destruct (lookup_lt_is_Some_2 runs j) as [rj Hj].
  { apply lookup_lt_Some in H2. lia. }
  specialize (Hadj j rj r2 Hj H2).
  destruct (decide (i = j)) as [->|Hne]; [congruence|].
  apply compare_lt_trans with (ts rj); [|done].
  apply IH; [lia|done..].
Qed.

Lemma keysOrdered_increasing rle :
  noAdjacentEqual (TSRuns rle) -> keysOrdered rle -> keysIncreasing (TSRuns rle).
Proof.
  intros Hadj Hord. apply keysIncreasing_of_adjacent. intros i r1 r2 H1 H2.
  apply leb_neq_compare; [by apply (Hord i)|by apply (Hadj i)].
Qed.

Lemma scanCount_absent runs key :
  (forall (p : nat) r, runs !! p = Some r -> ts r <> key) ->
  scanCount runs key = (0, Some (KeyNotFound key)).
Proof.
  induction runs as [|r runs IH]; intros H; simpl; [done|].
  destruct (String.eqb_spec (ts r) key) as [Heq|_].
  - by destruct (H 0%nat r).
  - apply IH. intros p r' Hp. by apply (H (S p)).
Qed.

Lemma scanCount_first runs key (p : nat) r :
  runs !! p = Some r -> ts r = key ->
  (forall (q : nat) r', (q < p)%nat -> runs !! q = Some r' -> ts r' <> key) ->
  scanCount runs key = (count r, None).
Proof.
  revert p. induction runs as [|r0 runs IH]; intros p Hp Hkey Hbefore; [done|].
  simpl. destruct p as [|p]; simpl in Hp.
  - injection Hp as ->. by rewrite Hkey, String.eqb_refl.
  - destruct (String.eqb_spec (ts r0) key) as [Heq|_].
    + by destruct (Hbefore 0%nat r0 ltac:(lia) eq_refl).
    + apply (IH p); [done..|].
      intros q r' Hq Hr'. apply (Hbefore (S q)); [lia|done].
Qed.

(** On runs whose keys increase, the binary search computes what the
    linear scan computes. *)
Lemma searchRuns_spec fuel key low high rle :
  keysIncreasing (TSRuns rle) -> addressable (TSRuns rle) ->
  0 <= low -> high < len (TSRuns rle) -> low <= high + 1 ->
  (forall (p : nat) r, TSRuns rle !! p = Some r -> ts r = key ->
      low <= Z.of_nat p <= high) ->
  (Z.to_nat (high - low + 1) < fuel)%nat ->
  searchRuns fuel key low high rle = Done (scanCount (TSRuns rle) key, rle).
Proof.
  intros Hinc Haddr. unfold addressable in Haddr. revert low high.
  induction fuel as [|fuel IH]; intros low high Hlow Hhigh Hlh Hwin Hfuel; [lia|].
  simpl. destruct (Z.leb_spec low high) as [Hle|Hgt].
  - unfold bind, get.
    rewrite add_id by (unfold in_range, min_int, max_int; lia).
    rewrite quo_pos by (unfold max_int; lia).
    set (mid := (low + high) / 2).
    assert (Hmid : low <= mid <= high).
    { subst mid. split.
      - apply Z.div_le_lower_bound; lia.
      - apply Z.div_le_upper_bound; lia. }
    destruct (lookupZ (TSRuns rle) mid) as [run|] eqn:Hrun.
    2:{ apply lookupZ_None in Hrun. lia. }
    rewrite (at_Some _ _ _ _ Hrun).
    apply lookupZ_Some in Hrun as [_ Hrun].
    rewrite sub_id, add_id by (unfold in_range, min_int, max_int; lia).
    destruct (String.eqb_spec (ts run) key) as [Heq|Hne].
    + unfold ret. do 2 f_equal. symmetry.
      apply (scanCount_first _ _ (Z.to_nat mid) run); [done..|].
      intros q r' Hq Hr' Hk.
      pose proof (Hinc q (Z.to_nat mid) r' run Hq Hr' Hrun) as Hlt.
      apply compare_lt_neq in Hlt. congruence.
    + destruct (ts run <? key)%string eqn:Hlt.
      * apply ltb_compare in Hlt.
        apply IH; try lia. intros p r Hp Hk.
        specialize (Hwin p r Hp Hk).
        destruct (Z.le_gt_cases (Z.of_nat p) mid) as [Hpm|]; [|lia].
        exfalso. destruct (decide (p = Z.to_nat mid)) as [->|Hpne].
        { congruence. }
        pose proof (Hinc p (Z.to_nat mid) r run ltac:(lia) Hp Hrun) as Hlt'.
        rewrite Hk in Hlt'. by apply (compare_lt_asym key (ts run)).
      * assert (Hgt : String.compare key (ts run) = Lt).
        { apply compare_total; [done|]. intros Hc.
          apply ltb_compare in Hc. congruence. }
        apply IH; try lia. intros p r Hp Hk.
        specialize (Hwin p r Hp Hk).
        destruct (Z.le_gt_cases mid (Z.of_nat p)) as [Hpm|]; [|lia].
        exfalso. destruct (decide (p = Z.to_nat mid)) as [->|Hpne].
        { congruence. }
        pose proof (Hinc (Z.to_nat mid) p run r ltac:(lia) Hrun Hp) as Hlt'.
        rewrite Hk in Hlt'. by apply (compare_lt_asym key (ts run)).
  - unfold ret. do 2 f_equal. symmetry. apply scanCount_absent.
    intros p r Hp Hk. specialize (Hwin p r Hp Hk). lia.
Qed.

Lemma count_strategies_on_increasing rle key :
  keysIncreasing (TSRuns rle) -> addressable (TSRuns rle) ->
  GetCountofTS key rle = Done (scanCount (TSRuns rle) key, rle)
  /\ GetCountofTSFaster key rle = Done (scanCount (TSRuns rle) key, rle).
Proof.
  intros Hinc Haddr. split; [done|].
  unfold GetCountofTSFaster, bind, get.
  pose proof (len_nonneg (TSRuns rle)). unfold addressable in Haddr.
  rewrite sub_id by (unfold in_range, min_int, max_int; lia).
  apply searchRuns_spec; try done; try lia.
  - intros p r Hp _. apply lookup_lt_Some in Hp. unfold len. lia.
  - unfold len. lia.
Qed.
End RleCount.

(* ===================================================================== *)
(** * Run-length encoder: the searches terminate                           *)
(* ===================================================================== *)

Section RleFuel.
Import rle rle_spec.

Lemma midpoint low high :
  0 <= low -> low <= high -> high < 2 ^ 61 ->
  forall s : RLE,
    quo (low ⊕ high) 2 s = Done ((low + high) / 2, s)
    /\ low <= (low + high) / 2 <= high.
Proof.
  intros Hlow Hle Hhigh s.
  rewrite add_id by (unfold in_range, min_int, max_int; lia).
  rewrite quo_pos by (unfold max_int; lia). split; [done|]. split.
  - apply Z.div_le_lower_bound; lia.
  - apply Z.div_le_upper_bound; lia.
Qed.

(** Whatever the encoder holds, the fuel passed by the entry points
    outlasts the loops: every iteration shrinks [high - low]. *)
Lemma searchEnds_fuel fuel rowID low high rle :
  addressable (tsRunEnds rle) ->
  0 <= low -> high < len (tsRunEnds rle) ->
  (Z.to_nat (high - low + 1) < fuel)%nat ->
  searchEnds fuel rowID low high rle <> OutOfFuel.
Proof.
  intros Haddr. unfold addressable in Haddr. revert low high.
  induction fuel as [|fuel IH]; intros low high Hlow Hhigh Hfuel; [lia|].
  simpl. destruct (Z.leb_spec low high) as [Hle|Hgt]; [|done].
  unfold bind, get.
  destruct (midpoint low high Hlow Hle ltac:(lia) rle) as [-> Hmid].
  unfold at_. destruct (lookupZ (tsRunEnds rle) ((low + high) / 2)); [|done].
  unfold ret.
  rewrite sub_id, add_id by (unfold in_range, min_int, max_int; lia).
  destruct (_ >=? rowID); apply IH; lia.
Qed.

Lemma searchRuns_fuel fuel key low high rle :
  addressable (TSRuns rle) ->
  0 <= low -> high < len (TSRuns rle) ->
  (Z.to_nat (high - low + 1) < fuel)%nat ->
  searchRuns fuel key low high rle <> OutOfFuel.
Proof.
  intros Haddr. unfold addressable in Haddr. revert low high.
  induction fuel as [|fuel IH]; intros low high Hlow Hhigh Hfuel; [lia|].
  simpl. destruct (Z.leb_spec low high) as [Hle|Hgt]; [|done].
  unfold bind, get.
  destruct (midpoint low high Hlow Hle ltac:(lia) rle) as [-> Hmid].
  unfold at_. destruct (lookupZ (TSRuns rle) ((low + high) / 2)) as [run|]; [|done].
  unfold ret.
  rewrite sub_id, add_id by (unfold in_range, min_int, max_int; lia).
  destruct (ts run =? key)%string; [done|].
  destruct (ts run <? key)%string; apply IH; lia.
Qed.

Lemma GetTSFromRowIDFaster_terminates rle rowID :
  addressable (tsRunEnds rle) -> GetTSFromRowIDFaster rowID rle <> OutOfFuel.
Proof.
  intros Haddr. pose proof Haddr as Hlen. unfold addressable in Hlen.
  pose proof (len_nonneg (tsRunEnds rle)).
  unfold GetTSFromRowIDFaster. unfold bind at 1, get.
  rewrite sub_id by (unfold in_range, min_int, max_int; lia).
  unfold bind at 1.
  destruct (rowID <=? 0); [done|].
  unfold bind at 1, at_.
  destruct (lookupZ (tsRunEnds rle) (len (tsRunEnds rle) - 1)); [|done].
  unfold ret. destruct (rowID >? _); [done|].
  unfold bind at 1.
  pose proof (searchEnds_fuel (S (length (tsRunEnds rle))) rowID 0
                (len (tsRunEnds rle) - 1) rle Haddr) as Hs.
  destruct (searchEnds _ _ _ _ _) as [[low s]| |]; [|done|].
  - unfold bind. by destruct (lookupZ (TSRuns rle) low).
  - exfalso. apply Hs; [lia|lia| |done]. unfold len. lia.
Qed.

Lemma GetCountofTSFaster_terminates rle key :
  addressable (TSRuns rle) -> GetCountofTSFaster key rle <> OutOfFuel.
Proof.
  intros Haddr. pose proof Haddr as Hlen. unfold addressable in Hlen.
  pose proof (len_nonneg (TSRuns rle)).
  unfold GetCountofTSFaster, bind, get.
  rewrite sub_id by (unfold in_range, min_int, max_int; lia).
  apply searchRuns_fuel; [done|lia|lia|]. unfold len. lia.
Qed.
End RleFuel.

(* ===================================================================== *)
(** * Run-length encoder: the properties                                   *)
(* ===================================================================== *)

Section RleProperties.
Import rle rle_spec.

Lemma built_testRows : built testRows testRLE.
Proof. reflexivity. Qed.

(** The assertions of the package's test on that encoder. *)
Example test_lookups :
  GetTSFromRowID 1 testRLE = Done ("10:00:00"%string, testRLE)
  /\ GetTSFromRowID 4 testRLE = Done ("10:00:02"%string, testRLE)
  /\ GetTSFromRowID 6 testRLE = Done ("10:00:03"%string, testRLE)
  /\ GetTSFromRowID (-1) testRLE = Done (EmptyString, testRLE)
  /\ GetTSFromRowID 8 testRLE = Done (EmptyString, testRLE)
  /\ GetTSFromRowIDFaster 1 testRLE = Done ("10:00:00"%string, testRLE)
  /\ GetTSFromRowIDFaster 3 testRLE = Done ("10:00:02"%string, testRLE)
  /\ GetTSFromRowIDFaster 4 testRLE = Done ("10:00:02"%string, testRLE)
  /\ GetTSFromRowIDFaster 6 testRLE = Done ("10:00:03"%string, testRLE)
  /\ GetTSFromRowIDFaster (-1) testRLE = Done (EmptyString, testRLE)
  /\ GetTSFromRowIDFaster 8 testRLE = Done (EmptyString, testRLE).
Proof. repeat split; reflexivity. Qed.

Example test_counts :
  GetCountofTS "10:00:00" testRLE = Done ((2, None), testRLE)
  /\ GetCountofTS "10:00:03" testRLE = Done ((1, None), testRLE)
  /\ GetCountofTS "10:00:01" testRLE
     = Done ((0, Some (KeyNotFound "10:00:01")), testRLE)
  /\ GetCountofTSFaster "10:00:00" testRLE = Done ((2, None), testRLE)
  /\ GetCountofTSFaster "10:00:02" testRLE = Done ((3, None), testRLE)
  /\ GetCountofTSFaster "10:00:03" testRLE = Done ((1, None), testRLE)
  /\ GetCountofTSFaster "10:00:01" testRLE
     = Done ((0, Some (KeyNotFound "10:00:01")), testRLE).
Proof. repeat split; reflexivity. Qed.

Example test_rows :
  ReconstructRow 2 testRLE
  = Done (({| ID := 2; Value := 200; TS := "10:00:00" |}, None), testRLE)
  /\ ReconstructRow 6 testRLE
     = Done (({| ID := 6; Value := 600; TS := "10:00:03" |}, None), testRLE).
Proof. split; reflexivity. Qed.

Lemma built_unsortedRows : built unsortedRows unsortedRLE.
Proof. reflexivity. Qed.

Lemma built_recurringRows : built recurringRows recurringRLE.
Proof. reflexivity. Qed.

Lemma built_invariant rows rle :
  addressable rows -> built rows rle ->
  invariant rle /\ idList rle = map ID rows /\ valueList rle = map Value rows
  /\ TSRuns rle = foldl pushRun [] (map TS rows).
Proof.
  intros Haddr Hb. unfold addressable in Haddr.
  destruct (built_state rows) as (rle' & Hb' & H); [unfold max_int; lia|].
  by rewrite (built_unique _ _ _ Hb Hb').
Qed.

(** C3.  Every sequence of [AppendRow] calls builds an encoder on which,
    for every row id in [1, n], the linear [GetTSFromRowID] and the
    binary-search [GetTSFromRowIDFaster] both return, leave the encoder
    as it is, and return the same key. *)
Theorem row_to_key_strategies_agree (rows : list Row) :
  addressable rows ->
  exists rle : RLE,
    built rows rle
    /\ forall rowID : Z,
         1 <= rowID <= len rows ->
         exists key : string,
           GetTSFromRowID rowID rle = Done (key, rle)
           /\ GetTSFromRowIDFaster rowID rle = Done (key, rle).
Proof.
  intros Haddr.
  destruct (built_state rows) as (rle & Hb & Hinv & Hids & _).
  { unfold addressable, max_int in *. lia. }
  exists rle. split; [done|]. intros rowID Hrow.
  assert (Hlen : len (idList rle) = len rows).
  { rewrite Hids. unfold len. by rewrite length_map. }
  destruct (lookup_strategies_agree rle rowID Hinv) as (i & r & _ & _ & H1 & H2).
  - unfold addressable. by rewrite Hlen.
  - by rewrite Hlen.
  - by exists (ts r).
Qed.

Lemma row_to_key_strategies_agree_witness :
  addressable testRows /\ 1 <= 4 <= len testRows
  /\ exists rle : RLE,
       built testRows rle
       /\ exists key : string,
            GetTSFromRowID 4 rle = Done (key, rle)
            /\ GetTSFromRowIDFaster 4 rle = Done (key, rle).
Proof.
  assert (H : addressable testRows) by (unfold addressable; vm_compute; reflexivity).
  assert (H4 : 1 <= 4 <= len testRows) by (vm_compute; split; discriminate).
  split; [exact H|]. split; [exact H4|].
  destruct (row_to_key_strategies_agree testRows H) as (rle & Hb & Hagree).
  exists rle. split; [exact Hb|]. exact (Hagree 4 H4).
Defined.

(** C4.  On the freshly created encoder the range check of
    [GetTSFromRowIDFaster] reads [tsRunEnds[len(tsRunEnds)-1]], that is
    [tsRunEnds[-1]]: for the row id 1 the call panics, where the linear
    [GetTSFromRowID] returns the empty key. *)
Theorem GetTSFromRowIDFaster_empty_encoder_panics :
  GetTSFromRowIDFaster 1 InitRLE = Panic IndexOutOfRange
  /\ GetTSFromRowID 1 InitRLE = Done (EmptyString, InitRLE).
Proof. split; reflexivity. Qed.

(** Outside the empty encoder and positive row ids, the fast lookup rejects
    every row id out of range with the empty key. *)
Lemma GetTSFromRowIDFaster_outside rows rle rowID :
  addressable rows -> built rows rle ->
  (rowID <= 0 \/ (rows <> [] /\ len rows < rowID)) ->
  GetTSFromRowIDFaster rowID rle = Done (EmptyString, rle).
Proof.
  intros Haddr Hb Hout.
  destruct (built_invariant rows rle Haddr Hb) as (Hinv & Hids & _).
  unfold GetTSFromRowIDFaster, bind, get, ret.
  destruct (Z.leb_spec rowID 0) as [|Hpos]; [done|].
  destruct Hout as [|[Hne Hbig]]; [lia|].
  assert (Hlen : len (idList rle) = len rows).
  { rewrite Hids. unfold len. by rewrite length_map. }
  assert (Hne' : idList rle <> []).
  { rewrite Hids. by destruct rows. }
  pose proof (invariant_last_end rle Hinv Hne') as Hlast.
  destruct Hinv as [_ He Hc Ht _].
  pose proof (endsFrom_length 0 (TSRuns rle)) as Hll. rewrite <- He in Hll.
  clear He. destruct (tsRunEnds rle) as [|e l _] using rev_ind; [done|].
  rewrite last_snoc in Hlast. injection Hlast as ->.
  assert (len l < len rows).
  { pose proof (total_ge_len _ Hc). rewrite length_app in Hll. simpl in Hll.
    unfold len in *. lia. }
  unfold addressable in Haddr. pose proof (len_nonneg l).
  rewrite len_app. change (len [_]) with 1.
  rewrite sub_id by (unfold in_range, min_int, max_int; lia).
  replace (len l + 1 - 1) with (len l) by lia.
  rewrite (at_Some _ _ _ _ (lookupZ_last l _)).
  destruct (Z.gtb_spec rowID (len (idList rle))); [done|lia].
Qed.

(** C5.  Every sequence of [AppendRow] calls builds an encoder on which,
    when its runs are ordered by key, [GetCountofTS] and
    [GetCountofTSFaster] return the same result for every key: the count
    of the key's run when the key is present, and the KeyNotFound error
    when it is absent. *)
Theorem count_strategies_agree (rows : list Row) :
  addressable rows ->
  exists rle : RLE,
    built rows rle
    /\ (keysOrdered rle ->
        forall key : string,
        exists res : Z * option error,
          GetCountofTS key rle = Done (res, rle)
          /\ GetCountofTSFaster key rle = Done (res, rle)
          /\ (forall (i : nat) (r : TSRun),
                TSRuns rle !! i = Some r -> ts r = key -> res = (count r, None))
          /\ (~ keyPresent key rle -> res = (0, Some (KeyNotFound key)))).
Proof.
  intros Haddr.
  destruct (built_state rows) as (rle & Hb & Hinv & Hids & _).
  { unfold addressable, max_int in *. lia. }
  exists rle. split; [done|]. intros Hord key.
  pose proof Hinv as [_ _ Hc Ht Hadj].
  pose proof (keysOrdered_increasing rle Hadj Hord) as Hinc.
  assert (Haddr' : addressable (TSRuns rle)).
  { unfold addressable in *. pose proof (total_ge_len _ Hc).
    rewrite Ht, Hids in H. unfold len in *. rewrite length_map in H. lia. }
  destruct (count_strategies_on_increasing rle key Hinc Haddr') as [H1 H2].
  exists (scanCount (TSRuns rle) key). split; [done|]. split; [done|]. split.
  - intros i r Hi Hk. apply (scanCount_first _ _ i r); [done..|].
    intros q r' Hq Hr' Hk'.
    pose proof (Hinc q i r' r Hq Hr' Hi) as Hlt.
    apply compare_lt_neq in Hlt. congruence.
  - intros Habs. apply scanCount_absent. intros p r Hp Hk.
    apply Habs. by exists p, r.
Qed.

Lemma testRLE_keysOrdered : keysOrdered testRLE.
Proof.
  intros [|[|[|i]]] r1 r2 H1 H2; simpl in *; try discriminate;
    injection H1 as <-; injection H2 as <-; reflexivity.
Qed.

Lemma count_strategies_agree_witness :
  addressable testRows /\ keysOrdered testRLE
  /\ exists res : Z * option error,
       GetCountofTS "10:00:02" testRLE = Done (res, testRLE)
       /\ GetCountofTSFaster "10:00:02" testRLE = Done (res, testRLE)
       /\ (forall (i : nat) (r : TSRun),
             TSRuns testRLE !! i = Some r -> ts r = "10:00:02"%string ->
             res = (count r, None))
       /\ (~ keyPresent "10:00:02" testRLE ->
           res = (0, Some (KeyNotFound "10:00:02"))).
Proof.
  assert (H : addressable testRows) by (unfold addressable; vm_compute; reflexivity).
  split; [exact H|]. split; [exact testRLE_keysOrdered|].
  destruct (count_strategies_agree testRows H) as (rle & Hb & Hagree).
  rewrite (built_unique _ _ _ Hb built_testRows) in Hagree.
  exact (Hagree testRLE_keysOrdered "10:00:02"%string).
Defined.

(** C6.  Without the sorted-key precondition [GetCountofTSFaster] goes
    wrong.  After appending the keys b, a, c the key b is present with
    count 1, yet the binary search reports it as not found; after
    appending a, b, c, a, a, x, y, z the binary search answers with the
    count of the second run of a, not the first one that the linear scan
    returns. *)
Theorem count_fast_needs_sorted_keys :
  (exists (rows : list Row) (rle : RLE) (key : string) (c : Z),
      built rows rle /\ ~ keysOrdered rle /\ keyPresent key rle
      /\ GetCountofTS key rle = Done ((c, None), rle)
      /\ GetCountofTSFaster key rle = Done ((0, Some (KeyNotFound key)), rle))
  /\ (exists (rows : list Row) (rle : RLE) (key : string) (c c' : Z),
      built rows rle /\ ~ keysOrdered rle /\ keyPresent key rle
      /\ GetCountofTS key rle = Done ((c, None), rle)
      /\ GetCountofTSFaster key rle = Done ((c', None), rle)
      /\ c <> c').
Proof.
  split.
  - exists unsortedRows, unsortedRLE, "b"%string, 1.
    split; [reflexivity|]. split; [|split; [|split; reflexivity]].
    + intros H.
      specialize (H 0%nat {| ts := "b"; count := 1 |}
                    {| ts := "a"; count := 1 |} eq_refl eq_refl).
      discriminate H.
    + exists 0%nat, {| ts := "b"; count := 1 |}. by split.
  - exists recurringRows, recurringRLE, "a"%string, 1, 2.
    split; [reflexivity|]. split; [|split; [|split; [|split]]];
      [| |reflexivity|reflexivity|discriminate].
    + intros H.
      specialize (H 2%nat {| ts := "c"; count := 1 |}
                    {| ts := "a"; count := 2 |} eq_refl eq_refl).
      discriminate H.
    + exists 0%nat, {| ts := "a"; count := 1 |}. by split.
Qed.

(** C8.  Every sequence of [AppendRow] calls runs to completion and leaves
    an encoder in which [tsRunEnds] is strictly increasing, its last entry
    is [len(idList)] (the number of rows appended), and no two adjacent
    runs share a key.  Consequently, appending [k >= 1] further rows that
    all carry one key, different from the key of the last run (or to the
    empty encoder), adds exactly one run, of count [k]. *)
Theorem rle_run_merge_invariant (rows : list Row) :
  addressable rows ->
  exists rle : RLE,
    built rows rle
    /\ strictlyIncreasing (tsRunEnds rle)
    /\ len (idList rle) = len rows
    /\ (rows <> [] -> last (tsRunEnds rle) = Some (len (idList rle)))
    /\ noAdjacentEqual (TSRuns rle)
    /\ forall (key : string) (more : list Row),
         more <> [] -> Forall (fun row => TS row = key) more ->
         (forall r, last (TSRuns rle) = Some r -> ts r <> key) ->
         addressable (rows ++ more) ->
         exists rle' : RLE,
           built (rows ++ more) rle'
           /\ TSRuns rle' = TSRuns rle ++ [{| ts := key; count := len more |}].
Proof.
  intros Haddr.
  destruct (built_state rows) as (rle & Hb & Hinv & Hids & Hvals & Hruns).
  { unfold addressable, max_int in *. lia. }
  exists rle. split; [done|].
  split; [by apply invariant_ends_increasing|].
  split; [rewrite Hids; unfold len; by rewrite length_map|].
  split.
  { intros Hne. apply invariant_last_end; [done|]. rewrite Hids. by destruct rows. }
  split; [by destruct Hinv|].
  intros key more Hne Hall Hlast Haddr'.
  destruct (built_state (rows ++ more)) as (rle' & Hb' & _ & _ & _ & Hruns').
  { unfold addressable, max_int in *. lia. }
  exists rle'. split; [done|].
  rewrite Hruns', map_app, foldl_app, <- Hruns.
  rewrite (pushRun_same _ key).
  - unfold len. by rewrite length_map.
  - by destruct more.
  - apply Forall_map. done.
  - done.
Qed.

Lemma rle_run_merge_invariant_witness :
  addressable testRows
  /\ exists rle : RLE,
       built testRows rle
       /\ strictlyIncreasing (tsRunEnds rle)
       /\ len (idList rle) = len testRows
       /\ last (tsRunEnds rle) = Some (len (idList rle))
       /\ noAdjacentEqual (TSRuns rle)
       /\ exists rle' : RLE,
            built (testRows ++ moreRows) rle'
            /\ TSRuns rle' = TSRuns rle ++ [{| ts := "10:00:04"; count := 3 |}].
Proof.
  assert (H : addressable testRows) by (unfold addressable; vm_compute; reflexivity).
  split; [exact H|].
  destruct (rle_run_merge_invariant testRows H)
    as (rle & Hb & Hinc & Hlen & Hlast & Hadj & Hmore).
  exists rle. split; [exact Hb|]. split; [exact Hinc|]. split; [exact Hlen|].
  split; [apply Hlast; discriminate|]. split; [exact Hadj|].
  apply (Hmore "10:00:04"%string moreRows).
  - discriminate.
  - repeat constructor.
  - rewrite (built_unique _ _ _ Hb built_testRows). simpl.
    intros r Hr. injection Hr as <-. simpl. discriminate.
  - unfold addressable. vm_compute. reflexivity.
Defined.
End RleProperties.

(* ===================================================================== *)
(** * Delta encoder: the append path                                       *)
(* ===================================================================== *)

Section WrapFacts.

Lemma wrap_in_range z : in_range (wrap z).
Proof.
  unfold in_range, min_int, max_int, wrap.
  pose proof (Z.mod_pos_bound (z + 2 ^ 63) (2 ^ 64)). lia.
Qed.

Lemma wrap_wrap z : wrap (wrap z) = wrap z.
Proof. apply wrap_id, wrap_in_range. Qed.

(** Adding the delta [c - b] to a value congruent with [b] gives [c],
    whatever wrapped on the way. *)
Lemma wrap_add_delta a b c : wrap a = wrap b -> a ⊕ (c ⊖ b) = wrap c.
Proof.
  unfold add, sub, wrap. intros H. Z.div_mod_to_equations. lia.
Qed.

Lemma div_succ n k :
  0 <= n -> 0 < k ->
  (n + 1) / k = n / k + (if (n + 1) mod k =? 0 then 1 else 0).
Proof.
  intros Hn Hk.
  pose proof (Z.div_mod (n + 1) k ltac:(lia)) as Hdm.
  pose proof (Z.mod_pos_bound (n + 1) k Hk) as Hb.
  destruct (Z.eqb_spec ((n + 1) mod k) 0) as [H0|H0].
  - assert ((n + 1) / k - 1 = n / k); [|lia].
    apply (Z.div_unique n k _ (k - 1)); [lia|]. nia.
  - assert ((n + 1) / k = n / k); [|lia].
    apply (Z.div_unique n k _ ((n + 1) mod k - 1)); [lia|]. nia.
Qed.

Lemma one_mod_zero k : 0 < k -> 1 mod k = 0 -> k = 1.
Proof.
  intros Hk H0. destruct (decide (k = 1)) as [|Hne]; [done|].
  rewrite Z.mod_small in H0; lia.
Qed.

Lemma wrap_add_zero a : a ⊕ 0 = wrap a.
Proof. unfold add. by rewrite Z.add_0_r. Qed.

End WrapFacts.

Section DeltaColumns.
Import delta_encoding delta_spec.

Lemma rowAt_lookup rows (i : nat) r : rows !! i = Some r -> rowAt rows i = r.
Proof. unfold rowAt. by intros ->. Qed.

Lemma rowAt_app_l rows more (i : nat) :
  (i < length rows)%nat -> rowAt (rows ++ more) i = rowAt rows i.
Proof. intros Hi. unfold rowAt. by rewrite lookup_app_l. Qed.

Lemma rowAt_snoc rows r : rowAt (rows ++ [r]) (length rows) = r.
Proof.
  unfold rowAt. rewrite lookup_app_r by lia. by rewrite Nat.sub_diag.
Qed.

Lemma rowAt_last rows r :
  last rows = Some r -> rowAt rows (length rows - 1) = r.
Proof.
  destruct rows as [|r0 l _] using rev_ind; [done|].
  rewrite last_snoc. intros [= ->]. rewrite length_app. simpl.
  replace (length l + 1 - 1)%nat with (length l) by lia. apply rowAt_snoc.
Qed.

Lemma deltaAt_app_l f rows more (i : nat) :
  (i < length rows)%nat -> deltaAt f (rows ++ more) i = deltaAt f rows i.
Proof.
  intros Hi. destruct i as [|j]; [done|]. simpl.
  by rewrite !rowAt_app_l by lia.
Qed.

Lemma deltaColumn_first f r : deltaColumn f [r] [0].
Proof.
  split; [done|]. intros [|i] d H; simpl in H; [|done]. by injection H as <-.
Qed.

Lemma deltaColumn_snoc f rows ds r prev :
  deltaColumn f rows ds -> last rows = Some prev ->
  deltaColumn f (rows ++ [r]) (ds ++ [f r ⊖ f prev]).
Proof.
  intros [Hlen Hds] Hlast. split; [rewrite !length_app; simpl; lia|].
  intros i d Hd.
  destruct (decide (i < length ds)%nat) as [Hi|Hi].
  - rewrite lookup_app_l in Hd by done.
    rewrite deltaAt_app_l by lia. by apply Hds.
  - assert (i = length rows) as ->.
    { apply lookup_lt_Some in Hd. rewrite length_app in Hd. simpl in Hd. lia. }
    rewrite lookup_app_r in Hd by lia.
    rewrite Hlen, Nat.sub_diag in Hd. simpl in Hd. injection Hd as <-.
    assert (length rows <> 0)%nat as Hne by (destruct rows; [done|simpl; lia]).
    unfold deltaAt. destruct (length rows) as [|j] eqn:Hn; [done|].
    rewrite <- Hn, rowAt_snoc. rewrite rowAt_app_l by lia.
    replace j with (length rows - 1)%nat by lia.
    by rewrite (rowAt_last _ _ Hlast).
Qed.

Lemma checkpointRow_lt k rows cps f (g : nat) :
  0 < k -> rows <> [] -> checkpointColumn f k rows cps ->
  (g < length cps)%nat -> (checkpointRow k g < length rows)%nat.
Proof.
  intros Hk Hne [Hlen _] Hg.
  destruct (decide (rows = [])); [done|].
  assert (0 < len rows) by (destruct rows; [done|unfold len; simpl; lia]).
  unfold len in *. destruct g as [|g]; simpl; [lia|].
  assert (Z.of_nat (S g) <= Z.of_nat (length rows) / k) as Hle by lia.
  assert (Z.of_nat (S g) * k <= Z.of_nat (length rows)).
  { pose proof (Z.mul_div_le (Z.of_nat (length rows)) k Hk). nia. }
  lia.
Qed.

(** What one append does to a checkpoint column: the first row is a
    checkpoint, and so is every row that makes the number of rows a
    multiple of the interval. *)
Lemma checkpointColumn_snoc f k rows cps r :
  0 < k -> checkpointColumn f k rows cps ->
  checkpointColumn f k (rows ++ [r])
    ((if len rows =? 0 then cps ++ [f r] else cps)
       ++ (if (len rows + 1) mod k =? 0 then [f r] else [])).
Proof.
  intros Hk Hcol. pose proof Hcol as [Hlen Hcps].
  pose proof (len_nonneg rows) as Hn0.
  set (n := len rows) in *.
  pose proof (div_succ n k Hn0 Hk) as Hdiv.
  unfold checkpointColumn.
  destruct (decide (rows ++ [r] = [])) as [Habs|_]; [by destruct rows|].
  rewrite (len_app rows [r]). change (len [r]) with 1. fold n.
  destruct (decide (rows = [])) as [->|Hne].
  - (* the first row *)
    assert (cps = []) as -> by (destruct cps; [done|unfold len in Hlen; simpl in Hlen; lia]).
    change (len []) with 0 in *. subst n.
    replace (0 + 1) with 1 in * by lia. rewrite Z.div_0_l in Hdiv by lia.
    simpl. split.
    + change (len [f r]) with 1. rewrite Hdiv.
      destruct (Z.eqb_spec (1 mod k) 0); done.
    + intros g v Hg.
      destruct (Z.eqb_spec (1 mod k) 0) as [H0|H0].
      * assert (k = 1) as -> by by apply one_mod_zero.
        destruct g as [|[|g]]; simpl in Hg; [| |done]; by injection Hg as <-.
      * destruct g as [|g]; simpl in Hg; [|done]. by injection Hg as <-.
  - (* a later row *)
    assert (Hn : 0 < n) by (subst n; destruct rows; [done|unfold len; simpl; lia]).
    destruct (Z.eqb_spec n 0); [lia|].
    split.
    + rewrite len_app, Hlen.
      rewrite Hdiv. destruct (Z.eqb_spec ((n + 1) mod k) 0); simpl.
      * change (len [f r]) with 1. lia.
      * change (len []) with 0. lia.
    + intros g v Hg.
      destruct (decide (g < length cps)%nat) as [Hlt|Hge].
      * rewrite lookup_app_l in Hg by done.
        rewrite rowAt_app_l by by apply (checkpointRow_lt k rows cps f).
        by apply Hcps.
      * rewrite lookup_app_r in Hg by lia.
        destruct (Z.eqb_spec ((n + 1) mod k) 0) as [H0|H0].
        2:{ by rewrite lookup_nil in Hg. }
        destruct (g - length cps)%nat as [|j] eqn:Hj; simpl in Hg; [|done].
        injection Hg as <-.
        assert (Hgz : Z.of_nat g = (n + 1) / k).
        { unfold len in Hlen. rewrite Hdiv.
          destruct (Z.eqb_spec ((n + 1) mod k) 0); lia. }
        assert (Hgk : Z.of_nat g * k = n + 1).
        { rewrite Hgz. Z.div_mod_to_equations. nia. }
        assert (checkpointRow k g = length rows) as ->; [|by rewrite rowAt_snoc].
        unfold checkpointRow. destruct g as [|g]; [lia|].
        rewrite Hgk. subst n. unfold len. lia.
Qed.
End DeltaColumns.

Section DeltaAppend.
Import delta_encoding delta_spec.

Lemma InitDE_invariant : invariant [] InitDE.
Proof.
  split; simpl; done.
Qed.

(** One call of [AppendRow] on a state that satisfies the invariant: it
    does not panic and the invariant holds with the row added. *)
Lemma delta_AppendRow_effect row rows de :
  invariant rows de -> len rows < max_int ->
  exists de',
    AppendRow row de = Done (tt, de')
    /\ invariant (rows ++ [row]) de'
    /\ checkpointInterval de' = checkpointInterval de.
Proof.
  intros [Hids Horig Hk Hlast Hdv Hdt Hcv Hct] Hn.
  destruct de as [ids dvs dts orig lv lt k cvs cts]. simpl in *. subst ids orig.
  pose proof (len_nonneg rows) as Hn0.
  assert (Hlen : len (map ID rows) = len rows) by (unfold len; by rewrite length_map).
  assert (Hrem : forall s : DeltaEncoding,
             rem (len (map ID rows ++ [ID row])) k s
             = Done ((len rows + 1) mod k, s)).
  { intros s. rewrite len_app, Hlen. change (len [ID row]) with 1.
    apply rem_pos; lia. }
  pose proof (checkpointColumn_snoc Value k rows cvs row Hk Hcv) as Hcv'.
  pose proof (checkpointColumn_snoc TS k rows cts row Hk Hct) as Hct'.
  unfold AppendRow, bind, get, modify, ret. simpl. rewrite Hlen.
  destruct (Z.eqb_spec (len rows) 0) as [Hz|Hz]; simpl.
  - assert (rows = []) as -> by (destruct rows; [done|unfold len in Hz; simpl in Hz; lia]).
    rewrite Hrem. change (len (@nil Row) + 1) with 1 in *. simpl in *.
    assert (dvs = []) as -> by (destruct Hdv as [Hl _]; by destruct dvs).
    assert (dts = []) as -> by (destruct Hdt as [Hl _]; by destruct dts).
    destruct (Z.eqb_spec (1 mod k) 0) as [H0|H0]; simpl.
    + eexists. split; [reflexivity|]. split; [|done].
      split; simpl; try done; try apply deltaColumn_first.
      intros r [= <-]. done.
    + eexists. split; [reflexivity|]. split; [|done].
      rewrite app_nil_r in Hcv', Hct'.
      split; simpl; try done; try apply deltaColumn_first.
      intros r [= <-]. done.
  - destruct (last rows) as [prev|] eqn:Hprev.
    2:{ apply last_None in Hprev. subst rows. done. }
    destruct (Hlast prev eq_refl) as [-> ->].
    rewrite Hrem. simpl.
    destruct (Z.eqb_spec ((len rows + 1) mod k) 0) as [H0|H0]; simpl.
    + eexists. split; [reflexivity|]. split; [|done].
      split; simpl; try done.
      * by rewrite map_app.
      * intros r. rewrite last_snoc. by intros [= <-].
      * by apply deltaColumn_snoc.
      * by apply deltaColumn_snoc.
    + eexists. split; [reflexivity|]. split; [|done].
      rewrite app_nil_r in Hcv', Hct'.
      split; simpl; try done.
      * by rewrite map_app.
      * intros r. rewrite last_snoc. by intros [= <-].
      * by apply deltaColumn_snoc.
      * by apply deltaColumn_snoc.
Qed.

(** Any sequence of appends runs to completion and establishes the
    invariant; the interval stays the one [InitDE] sets. *)
Lemma delta_built_state rows :
  len rows <= max_int ->
  exists de,
    built rows de /\ invariant rows de /\ checkpointInterval de = 4.
Proof.
  induction rows as [|row rows IH] using rev_ind; intros Hn.
  - exists InitDE. split; [done|]. split; [apply InitDE_invariant|done].
  - rewrite len_app in Hn. change (len [row]) with 1 in Hn.
    destruct IH as (de & Hb & Hi & Hk); [lia|].
    destruct (delta_AppendRow_effect row rows de Hi) as (de' & Hrun & Hi' & Hk'); [lia|].
    exists de'. unfold built. rewrite (forEach_snoc _ _ _ _ _ Hb).
    split; [done|]. split; [done|congruence].
Qed.

End DeltaAppend.

(* ===================================================================== *)
(** * Delta encoder: reconstruction                                        *)
(* ===================================================================== *)

Section DeltaReconstruct.
Import delta_encoding delta_spec.

Lemma deltaColumn_at f rows ds (i : nat) (s : DeltaEncoding) :
  deltaColumn f rows ds -> (i < length rows)%nat ->
  (ds @ Z.of_nat i) s = Done (deltaAt f rows i, s).
Proof.
  intros [Hlen Hds] Hi.
  destruct (lookup_lt_is_Some_2 ds i) as [d Hd]; [lia|].
  rewrite (lookupZ_of_nat_at _ _ _ _ Hd). by rewrite (Hds i d Hd).
Qed.

Lemma add_deltaAt f rows (i : nat) acc :
  wrap acc = wrap (f (rowAt rows (pred i))) ->
  acc ⊕ deltaAt f rows i = wrap (f (rowAt rows i)).
Proof.
  intros Hacc. destruct i as [|j]; simpl in *.
  - by rewrite wrap_add_zero.
  - by apply wrap_add_delta.
Qed.

(** The loop of [ReconstructRow], entered at the index [ind] with the
    absolute values of the row before it, leaves the absolute values of
    the row [rowIndex]. *)
Lemma addDeltas_spec rows de (rowIndex : nat) fuel (ind : nat) row :
  invariant rows de -> addressable rows ->
  (ind <= rowIndex)%nat -> (rowIndex < length rows)%nat ->
  wrap (Value row) = wrap (Value (rowAt rows (pred ind))) ->
  wrap (TS row) = wrap (TS (rowAt rows (pred ind))) ->
  (rowIndex - ind + 1 < fuel)%nat ->
  addDeltas fuel (Z.of_nat ind) (Z.of_nat rowIndex) row de
  = Done ({| ID := ID row;
             Value := wrap (Value (rowAt rows rowIndex));
             TS := wrap (TS (rowAt rows rowIndex)) |}, de).
Proof.
  intros Hinv Haddr. unfold addressable, len in Haddr.
  revert ind row. induction fuel as [|fuel IH];
    intros ind row Hind Hrow Hv Ht Hfuel; [lia|].
  simpl. destruct (Z.leb_spec (Z.of_nat ind) (Z.of_nat rowIndex)); [|lia].
  unfold bind at 1, get.
  unfold bind at 1.
  rewrite (deltaColumn_at Value rows) by (apply Hinv || lia).
  unfold bind at 1.
  rewrite (deltaColumn_at TS rows) by (apply Hinv || lia).
  rewrite (add_deltaAt Value), (add_deltaAt TS) by done.
  rewrite add_id by (unfold in_range, min_int, max_int; lia).
  replace (Z.of_nat ind + 1) with (Z.of_nat (S ind)) by lia.
  destruct (decide (ind = rowIndex)) as [->|Hne].
  - destruct fuel as [|fuel]; [lia|]. cbn [addDeltas].
    destruct (Z.leb_spec (Z.of_nat (S rowIndex)) (Z.of_nat rowIndex));
      [lia|done].
  - apply (IH (S ind) {| ID := ID row;
                         Value := wrap (Value (rowAt rows ind));
                         TS := wrap (TS (rowAt rows ind)) |});
      simpl; try lia; by rewrite wrap_wrap.
Qed.

Lemma checkpointColumn_at f k rows cps (g : nat) (s : DeltaEncoding) :
  checkpointColumn f k rows cps -> rows <> [] ->
  Z.of_nat g <= len rows / k ->
  (cps @ Z.of_nat g) s = Done (f (rowAt rows (checkpointRow k g)), s).
Proof.
  intros [Hlen Hcps] Hne Hg. destruct (decide (rows = [])); [done|].
  destruct (lookup_lt_is_Some_2 cps g) as [v Hv]; [unfold len in *; lia|].
  rewrite (lookupZ_of_nat_at _ _ _ _ Hv). by rewrite (Hcps g v Hv).
Qed.

(** [ReconstructRow] on a state that satisfies the invariant: the row id
    given, next to the stored value and timestamp of that row. *)
Lemma ReconstructRow_spec rows de (i : nat) r :
  invariant rows de -> addressable rows -> rows !! i = Some r ->
  ReconstructRow (Z.of_nat i + 1) de
  = Done (({| ID := Z.of_nat i + 1;
              Value := wrap (Value r);
              TS := wrap (TS r) |}, None), de).
Proof.
  intros Hinv Haddr Hr. pose proof Hinv as [Hids _ Hk _ _ _ Hcv Hct].
  assert (Hi : (i < length rows)%nat) by by apply lookup_lt_Some in Hr.
  assert (Hne : rows <> []) by (destruct rows; [simpl in Hi; lia|done]).
  unfold addressable, len in Haddr.
  unfold ReconstructRow. unfold bind at 1, get.
  destruct (Z.leb_spec (Z.of_nat i + 1) 0); [lia|].
  destruct (Z.gtb_spec (Z.of_nat i + 1) (len (idList de))) as [Hgt|_].
  { rewrite Hids in Hgt. unfold len in Hgt. rewrite length_map in Hgt. lia. }
  cbn [orb].
  rewrite sub_id by (unfold in_range, min_int, max_int; lia).
  replace (Z.of_nat i + 1 - 1) with (Z.of_nat i) by lia.
  set (k := checkpointInterval de) in *.
  unfold bind at 1. rewrite quo_pos by (unfold max_int; lia).
  assert (Hc0 : 0 <= Z.of_nat i / k) by (apply Z.div_pos; lia).
  assert (Hck : Z.of_nat i / k * k <= Z.of_nat i).
  { pose proof (Z.mul_div_le (Z.of_nat i) k Hk). lia. }
  remember (Z.to_nat (Z.of_nat i / k)) as g eqn:Hg.
  assert (Hgz : Z.of_nat i / k = Z.of_nat g) by lia.
  rewrite Hgz in *.
  assert (Hgn : Z.of_nat g <= len rows / k).
  { rewrite <- Hgz. apply Z.div_le_mono; unfold len; lia. }
  unfold bind at 1. rewrite (checkpointColumn_at Value k rows) by done.
  unfold bind at 1. rewrite (checkpointColumn_at TS k rows) by done.
  rewrite mul_id by (unfold in_range, min_int, max_int; lia).
  replace (Z.of_nat g * k) with (Z.of_nat (Z.to_nat (Z.of_nat g * k))) by lia.
  unfold bind. rewrite (addDeltas_spec rows); try done; try lia.
  - simpl. by rewrite (rowAt_lookup _ _ _ Hr).
  - simpl. f_equal. f_equal. unfold checkpointRow.
    destruct g as [|g']; [by rewrite Z.mul_0_l|]. f_equal. lia.
  - simpl. f_equal. f_equal. unfold checkpointRow.
    destruct g as [|g']; [by rewrite Z.mul_0_l|]. f_equal. lia.
Qed.

Lemma ReconstructRow_outside de rowID :
  rowID <= 0 \/ len (idList de) < rowID ->
  ReconstructRow rowID de = Done ((zeroRow, Some (RowNotFound rowID)), de).
Proof.
  intros Hout. unfold ReconstructRow, bind, get, ret.
  destruct (Z.leb_spec rowID 0); [done|].
  destruct (Z.gtb_spec rowID (len (idList de))); [done|lia].
Qed.
End DeltaReconstruct.

Section DeltaFuel.
Import delta_encoding delta_spec.

(** Whatever the encoder holds, the loop of [ReconstructRow] ends within
    the fuel that [ReconstructRow] passes. *)
Lemma addDeltas_fuel fuel ind rowIndex row de :
  rowIndex < 2 ^ 61 ->
  (Z.to_nat (rowIndex - ind + 1) < fuel)%nat ->
  addDeltas fuel ind rowIndex row de <> OutOfFuel.
Proof.
  intros Hrow. revert ind row.
  induction fuel as [|fuel IH]; intros ind row Hfuel; [lia|].
  simpl. destruct (Z.leb_spec ind rowIndex) as [Hle|Hgt]; [|done].
  unfold bind, get, at_.
  destruct (lookupZ (deltaValueList de) ind) as [dv|] eqn:Hdv; [|done].
  apply lookupZ_Some in Hdv as [Hind _].
  unfold ret. destruct (lookupZ (deltaTsList de) ind) as [dt|]; [|done].
  rewrite add_id by (unfold in_range, min_int, max_int; lia).
  apply IH. lia.
Qed.

Lemma ReconstructRow_terminates de rowID :
  addressable (idList de) -> ReconstructRow rowID de <> OutOfFuel.
Proof.
  intros Haddr. unfold addressable in Haddr.
  unfold ReconstructRow. unfold bind at 1, get.
  destruct (Z.leb_spec rowID 0); [done|].
  destruct (Z.gtb_spec rowID (len (idList de))); [done|].
  cbn [orb].
  rewrite sub_id by (unfold in_range, min_int, max_int; lia).
  unfold bind at 1, quo.
  destruct (checkpointInterval de =? 0); [done|]. unfold ret.
  unfold bind at 1, at_.
  destruct (lookupZ (checkpointValues de) _); [|done]. unfold ret.
  unfold bind at 1.
  destruct (lookupZ (checkpointTs de) _); [|done].
  unfold bind.
  match goal with
  | |- context [addDeltas ?f ?i ?r ?row ?s] =>
      pose proof (addDeltas_fuel f i r row s) as Hloop;
      destruct (addDeltas f i r row s)
  end; [by destruct a|done|].
  exfalso. apply Hloop; [lia|lia|done].
Qed.
End DeltaFuel.

(* ===================================================================== *)
(** * Delta encoder: the table and its verifier                            *)
(* ===================================================================== *)

Section DeltaVerify.
Import delta_encoding delta_spec.

Lemma Row_eqb_refl r : Row_eqb r r = true.
Proof. unfold Row_eqb. by rewrite !Z.eqb_refl. Qed.

Lemma ReconstructRow_exact rows de (i : nat) row :
  invariant rows de -> addressable rows ->
  Forall rowInRange rows -> contiguousIds rows -> rows !! i = Some row ->
  ReconstructRow (ID row) de = Done ((row, None), de).
Proof.
  intros Hinv Haddr Hrange Hids Hrow.
  rewrite (Hids i row Hrow).
  rewrite (ReconstructRow_spec rows de i row Hinv Haddr Hrow).
  rewrite Forall_lookup in Hrange. destruct (Hrange i row Hrow) as [Hv Ht].
  rewrite !wrap_id by done. rewrite <- (Hids i row Hrow). by destruct row.
Qed.

Lemma reconstructEach_all rows de pre suf acc :
  invariant rows de -> addressable rows ->
  Forall rowInRange rows -> contiguousIds rows -> rows = pre ++ suf ->
  reconstructEach (map ID suf) acc de = Done ((acc ++ suf, None), de).
Proof.
  intros Hinv Haddr Hrange Hids. revert pre acc.
  induction suf as [|r suf IH]; intros pre acc Hrows; simpl.
  - by rewrite app_nil_r.
  - unfold bind.
    rewrite (ReconstructRow_exact rows de (length pre) r); try done.
    + rewrite (IH (pre ++ [r]) (acc ++ [r])).
      * by rewrite <- app_assoc.
      * by rewrite <- app_assoc.
    + rewrite Hrows, lookup_app_r by lia. by rewrite Nat.sub_diag.
Qed.

Lemma compareRows_same rows de pre suf :
  originalRows de = rows -> rows = pre ++ suf -> addressable rows ->
  compareRows (length suf) (len pre) rows de = Done (true, de).
Proof.
  intros Horig. revert pre. induction suf as [|r suf IH]; intros pre Hrows Haddr; [done|].
  simpl. unfold bind, get. rewrite Horig.
  assert (Hr : rows !! length pre = Some r).
  { rewrite Hrows, lookup_app_r by lia. by rewrite Nat.sub_diag. }
  unfold len at 1 2. rewrite !(lookupZ_of_nat_at _ _ _ _ Hr), Row_eqb_refl.
  fold (len pre).
  assert (len pre + len (r :: suf) < 2 ^ 61) as Hbound.
  { unfold addressable in Haddr. by rewrite Hrows, len_app in Haddr. }
  pose proof (len_nonneg suf). pose proof (len_nonneg pre).
  assert (len (r :: suf) = 1 + len suf) as Hcons by (unfold len; simpl; lia).
  rewrite add_id by (unfold in_range, min_int, max_int; lia).
  replace (len pre + 1) with (len (pre ++ [r]))
    by (rewrite len_app; unfold len; simpl; lia).
  apply IH; [by rewrite <- app_assoc|done].
Qed.

(** After appending rows with contiguous ids, [ReconstructTable] returns
    the rows and the verifier answers true. *)
Lemma verify_after_appends rows :
  addressable rows -> Forall rowInRange rows -> contiguousIds rows ->
  exists de : DeltaEncoding,
    built rows de
    /\ ReconstructTable de = Done ((rows, None), de)
    /\ VerifyDeltaEncodingCorrectness de = Done (true, de).
Proof.
  intros Haddr Hrange Hids.
  destruct (delta_built_state rows) as (de & Hb & Hinv & _).
  { unfold addressable, max_int in *. lia. }
  exists de. split; [done|].
  assert (Htable : ReconstructTable de = Done ((rows, None), de)).
  { unfold ReconstructTable, bind, get.
    destruct Hinv as [Hi ? ? ? ? ? ? ?]. rewrite Hi.
    by apply (reconstructEach_all rows de [] rows []). }
  split; [done|].
  unfold VerifyDeltaEncodingCorrectness. unfold bind at 1. rewrite Htable.
  unfold bind, get. destruct Hinv as [_ Horig _ _ _ _ _ _]. rewrite Horig.
  by apply (compareRows_same rows de [] rows).
Qed.
End DeltaVerify.

Section DeltaTable.
Import delta_encoding delta_spec.

(** [ReconstructTable] stops at the first stored id that is not a row
    number. *)
Lemma reconstructEach_fails rows de ids acc :
  invariant rows de -> addressable rows ->
  Exists (fun id => id <= 0 \/ len rows < id) ids ->
  exists id : Z,
    id ∈ ids /\ (id <= 0 \/ len rows < id)
    /\ reconstructEach ids acc de = Done (([], Some (RowNotFound id)), de).
Proof.
  intros Hinv Haddr Hex. revert acc.
  induction ids as [|id ids IH]; intros acc; [by apply Exists_nil in Hex|].
  assert (Hlen : len (idList de) = len rows).
  { destruct Hinv as [-> _ _ _ _ _ _ _]. unfold len. by rewrite length_map. }
  simpl. unfold bind.
  destruct (decide (id <= 0 \/ len rows < id)) as [Hout|Hin].
  - exists id. split; [by left|]. split; [done|].
    rewrite ReconstructRow_outside by by rewrite Hlen. done.
  - apply Exists_cons in Hex as [?|Hex]; [done|].
    destruct (lookup_lt_is_Some_2 rows (Z.to_nat (id - 1))) as [r Hr].
    { unfold len in Hin. lia. }
    pose proof (ReconstructRow_spec rows de _ r Hinv Haddr Hr) as Hrow.
    replace (Z.of_nat (Z.to_nat (id - 1)) + 1) with id in Hrow by lia.
    rewrite Hrow.
    destruct (IH Hex (acc ++ [{| ID := id; Value := wrap (Value r);
                                TS := wrap (TS r) |}]))
      as (id' & Hin' & Hout' & Hres).
    exists id'. split; [by right|]. split; [done|]. exact Hres.
Qed.
End DeltaTable.

Section Columns.

Lemma rle_AppendRow_idList row rle rle' :
  rle.AppendRow row rle = Done (tt, rle') ->
  rle.idList rle' = rle.idList rle ++ [rle.ID row].
Proof.
  cbv [rle.AppendRow bind get modify ret at_ store panic].
  intros H. repeat case_match; simplify_eq; done.
Qed.

Lemma delta_AppendRow_idList row de de' :
  delta_encoding.AppendRow row de = Done (tt, de') ->
  delta_encoding.idList de' = delta_encoding.idList de ++ [delta_encoding.ID row].
Proof.
  cbv [delta_encoding.AppendRow bind get modify ret rem panic].
  intros H. repeat case_match; simplify_eq; done.
Qed.

(** Each completed [AppendRow] pushes one id: an encoder that holds [n]
    appended rows has [len(idList) = n]. *)
Lemma rle_built_len rows rle :
  rle_spec.built rows rle -> len (rle.idList rle) = len rows.
Proof.
  unfold rle_spec.built.
  assert (forall s, forEach rle.AppendRow rows s = Done (tt, rle) ->
                    len (rle.idList rle) = len (rle.idList s) + len rows) as H.
  { induction rows as [|row rows IH]; intros s Hs; simpl in Hs.
    - injection Hs as <-. change (len []) with 0. lia.
    - unfold bind in Hs.
      destruct (rle.AppendRow row s) as [[[] s']| |] eqn:Hrow; [|done..].
      rewrite (IH s' Hs), (rle_AppendRow_idList _ _ _ Hrow), len_app.
      unfold len. simpl. lia. }
  intros Hb. by rewrite (H _ Hb).
Qed.

Lemma delta_built_len rows de :
  delta_spec.built rows de -> len (delta_encoding.idList de) = len rows.
Proof.
  unfold delta_spec.built.
  assert (forall s, forEach delta_encoding.AppendRow rows s = Done (tt, de) ->
                    len (delta_encoding.idList de)
                    = len (delta_encoding.idList s) + len rows) as H.
  { induction rows as [|row rows IH]; intros s Hs; simpl in Hs.
    - injection Hs as <-. change (len []) with 0. lia.
    - unfold bind in Hs.
      destruct (delta_encoding.AppendRow row s) as [[[] s']| |] eqn:Hrow; [|done..].
      rewrite (IH s' Hs), (delta_AppendRow_idList _ _ _ Hrow), len_app.
      unfold len. simpl. lia. }
  intros Hb. by rewrite (H _ Hb).
Qed.

Lemma rle_ReconstructRow_outside rle rowID :
  rowID <= 0 \/ len (rle.idList rle) < rowID ->
  rle.ReconstructRow rowID rle
  = Done ((rle.zeroRow, Some (RowNotFound rowID)), rle).
Proof.
  intros Hout. unfold rle.ReconstructRow, bind, get, ret.
  destruct (Z.leb_spec rowID 0); [done|].
  destruct (Z.gtb_spec rowID (len (rle.idList rle))); [done|lia].
Qed.

End Columns.

(* ===================================================================== *)
(** * Delta encoder: the properties                                        *)
(* ===================================================================== *)

Section DeltaProperties.
Import delta_encoding delta_spec.

Lemma built_delta_testRows : built testRows testDE.
Proof. reflexivity. Qed.

(** The assertions of the package's test on that encoder. *)
Example test_reconstruct :
  ReconstructRow 1 testDE
  = Done (({| ID := 1; Value := 10; TS := 1000 |}, None), testDE)
  /\ ReconstructRow 4 testDE
     = Done (({| ID := 4; Value := 30; TS := 1006 |}, None), testDE)
  /\ ReconstructRow 6 testDE
     = Done (({| ID := 6; Value := 50; TS := 1010 |}, None), testDE)
  /\ ReconstructRow 10 testDE
     = Done (({| ID := 10; Value := 10; TS := 1018 |}, None), testDE).
Proof. repeat split; reflexivity. Qed.

Example test_verify :
  VerifyDeltaEncodingCorrectness testDE = Done (true, testDE)
  /\ VerifyDeltaEncodingCorrectness corruptedDE = Done (false, corruptedDE).
Proof. split; reflexivity. Qed.

Lemma built_sparseRows : built sparseRows sparseDE.
Proof. reflexivity. Qed.

Lemma testRows_in_range : Forall rowInRange testRows.
Proof.
  repeat constructor; vm_compute; intros H; discriminate H.
Qed.

Lemma testRows_contiguous : contiguousIds testRows.
Proof.
  intros i row H. do 10 (destruct i as [|i]; [by injection H as <-|]).
  done.
Qed.

(** C1.  Round trip: appending rows with contiguous 1-based ids builds an
    encoder on which [ReconstructRow(i)] returns exactly the [i]-th
    appended row, for every [i] in [1, n] and every [n], multiple of the
    interval or not. *)
Theorem delta_round_trip (rows : list Row) :
  addressable rows -> Forall rowInRange rows -> contiguousIds rows ->
  exists de : DeltaEncoding,
    built rows de
    /\ forall (i : nat) (row : Row),
         rows !! i = Some row ->
         ReconstructRow (Z.of_nat i + 1) de = Done ((row, None), de).
Proof.
  intros Haddr Hrange Hids.
  destruct (delta_built_state rows) as (de & Hb & Hinv & _).
  { unfold addressable, max_int in *. lia. }
  exists de. split; [done|]. intros i row Hrow.
  rewrite (ReconstructRow_spec rows de i row Hinv Haddr Hrow).
  rewrite Forall_lookup in Hrange. destruct (Hrange i row Hrow) as [Hv Ht].
  rewrite !wrap_id by done. rewrite <- (Hids i row Hrow). by destruct row.
Qed.

Lemma delta_round_trip_witness :
  addressable testRows /\ Forall rowInRange testRows /\ contiguousIds testRows
  /\ exists de : DeltaEncoding,
       built testRows de
       /\ ReconstructRow 6 de
          = Done (({| ID := 6; Value := 50; TS := 1010 |}, None), de).
Proof.
  assert (H : addressable testRows) by (unfold addressable; vm_compute; reflexivity).
  split; [exact H|]. split; [exact testRows_in_range|].
  split; [exact testRows_contiguous|].
  destruct (delta_round_trip testRows H testRows_in_range testRows_contiguous)
    as (de & Hb & Hrt).
  exists de. split; [exact Hb|]. exact (Hrt 5%nat _ eq_refl).
Defined.

(** C2 as stated fails: with the ten rows of the package's test,
    checkpoint 1 holds 30, the value of row index 3, while the row of
    index 4 has value 20. *)
Lemma checkpoint_at_multiple_fails :
  built testRows testDE /\ ~ checkpointAtMultiple testRows testDE.
Proof.
  split; [reflexivity|]. intros H.
  destruct (H 1%nat 30 1006 eq_refl eq_refl) as (row & Hrow & Hv & _).
  simpl in Hrow. injection Hrow as <-. discriminate Hv.
Qed.

(** C2, amended.  Every sequence of [AppendRow] calls builds an encoder
    in which checkpoint [g > 0] holds the value and timestamp of the row
    of 0-based index [g * checkpointInterval - 1], and checkpoint 0 those
    of row index 0. *)
Theorem checkpoint_position (rows : list Row) :
  addressable rows ->
  exists de : DeltaEncoding,
    built rows de /\ checkpointBeforeMultiple rows de.
Proof.
  intros Haddr.
  destruct (delta_built_state rows) as (de & Hb & Hinv & _).
  { unfold addressable, max_int in *. lia. }
  exists de. split; [done|]. intros g v t Hv Ht.
  pose proof Hinv as [_ _ Hk _ _ _ Hcv Hct].
  assert (Hne : rows <> []).
  { intros ->. destruct Hcv as [Hlen _]. simpl in Hlen.
    apply lookup_lt_Some in Hv. unfold len in Hlen. lia. }
  assert (Hrow : (checkpointRow (checkpointInterval de) g < length rows)%nat).
  { apply (checkpointRow_lt _ rows (checkpointValues de) Value); try done.
    by apply lookup_lt_Some in Hv. }
  destruct (lookup_lt_is_Some_2 rows _ Hrow) as [row Hr].
  exists row. split.
  - rewrite <- Hr. f_equal. unfold checkpointRow.
    destruct g; by destruct (decide _).
  - destruct Hcv as [_ Hcv]. destruct Hct as [_ Hct].
    rewrite (Hcv g v Hv), (Hct g t Ht). by rewrite (rowAt_lookup _ _ _ Hr).
Qed.

Lemma checkpoint_position_witness :
  addressable testRows
  /\ exists de : DeltaEncoding,
       built testRows de /\ checkpointBeforeMultiple testRows de.
Proof.
  assert (H : addressable testRows) by (unfold addressable; vm_compute; reflexivity).
  split; [exact H|]. exact (checkpoint_position testRows H).
Defined.

(** C9.  Every sequence of [n > 0] calls of [AppendRow] builds an encoder
    in which [checkpointValues] and [checkpointTs] have
    [1 + floor(n / checkpointInterval)] entries. *)
Theorem checkpoint_count (rows : list Row) :
  addressable rows -> 0 < len rows ->
  exists de : DeltaEncoding,
    built rows de
    /\ len (checkpointValues de) = 1 + len rows / checkpointInterval de
    /\ len (checkpointTs de) = 1 + len rows / checkpointInterval de
    /\ checkpointInterval de = 4.
Proof.
  intros Haddr Hn.
  destruct (delta_built_state rows) as (de & Hb & Hinv & Hk).
  { unfold addressable, max_int in *. lia. }
  exists de. split; [done|].
  destruct Hinv as [_ _ _ _ _ _ [Hcv _] [Hct _]].
  destruct (decide (rows = [])) as [->|_]; [done|]. done.
Qed.

Lemma checkpoint_count_witness :
  addressable testRows /\ 0 < len testRows
  /\ exists de : DeltaEncoding,
       built testRows de
       /\ len (checkpointValues de) = 1 + len testRows / checkpointInterval de
       /\ len (checkpointTs de) = 1 + len testRows / checkpointInterval de
       /\ checkpointInterval de = 4.
Proof.
  assert (H : addressable testRows) by (unfold addressable; vm_compute; reflexivity).
  assert (H' : 0 < len testRows) by (vm_compute; reflexivity).
  split; [exact H|]. split; [exact H'|].
  exact (checkpoint_count testRows H H').
Defined.

(** C10.  [ReconstructRow] answers a valid row id with a row that carries
    that very id, not the stored [idList[rowID-1]]: when the appended ids
    are not 1..n the reconstructed id differs from the appended one, and
    [ReconstructTable], which passes each stored id to [ReconstructRow],
    fails on a stored id outside [1, n]. *)
Theorem reconstructed_id_is_the_argument :
  (forall rows : list Row,
      addressable rows ->
      exists de : DeltaEncoding,
        built rows de
        /\ (forall rowID : Z,
               1 <= rowID <= len rows ->
               exists row : Row,
                 ReconstructRow rowID de = Done ((row, None), de)
                 /\ ID row = rowID)
        /\ (Exists (fun row => ID row <= 0 \/ len rows < ID row) rows ->
            exists id : Z,
              id ∈ idList de /\ (id <= 0 \/ len rows < id)
              /\ ReconstructTable de
                 = Done (([], Some (RowNotFound id)), de)))
  /\ (exists (rows : list Row) (de : DeltaEncoding) (i : nat)
             (appended row : Row),
         built rows de /\ rows !! i = Some appended
         /\ idList de !! i = Some (ID appended)
         /\ ReconstructRow (Z.of_nat i + 1) de = Done ((row, None), de)
         /\ ID row <> ID appended).
Proof.
  split.
  - intros rows Haddr.
    destruct (delta_built_state rows) as (de & Hb & Hinv & _).
    { unfold addressable, max_int in *. lia. }
    exists de. split; [done|]. split.
    + intros rowID Hrow.
      destruct (lookup_lt_is_Some_2 rows (Z.to_nat (rowID - 1))) as [r Hr].
      { unfold len in Hrow. lia. }
      pose proof (ReconstructRow_spec rows de _ r Hinv Haddr Hr) as H.
      replace (Z.of_nat (Z.to_nat (rowID - 1)) + 1) with rowID in H by lia.
      eexists. split; [exact H|done].
    + intros Hex. unfold ReconstructTable, bind, get.
      apply (reconstructEach_fails rows); [done..|].
      destruct Hinv as [-> _ _ _ _ _ _ _]. by apply Exists_fmap.
  - exists sparseRows, sparseDE, 0%nat, {| ID := 2; Value := 10; TS := 1000 |},
      {| ID := 1; Value := 10; TS := 1000 |}.
    repeat split; done.
Qed.

Lemma reconstructed_id_is_the_argument_witness :
  addressable sparseRows
  /\ exists de : DeltaEncoding,
       built sparseRows de
       /\ (exists row : Row,
              ReconstructRow 1 de = Done ((row, None), de) /\ ID row = 1)
       /\ (exists id : Z,
              id ∈ idList de /\ (id <= 0 \/ len sparseRows < id)
              /\ ReconstructTable de
                 = Done (([], Some (RowNotFound id)), de)).
Proof.
  assert (H : addressable sparseRows) by (unfold addressable; vm_compute; reflexivity).
  split; [exact H|].
  destruct (proj1 reconstructed_id_is_the_argument sparseRows H)
    as (de & Hb & Hrow & Htable).
  exists de. split; [exact Hb|]. split.
  - apply Hrow. vm_compute. split; discriminate.
  - apply Htable. apply Exists_cons_tl, Exists_cons_hd. right.
    vm_compute. reflexivity.
Defined.
End DeltaProperties.

(* ===================================================================== *)
(** * Both encoders: row ids outside the table                             *)
(* ===================================================================== *)

Section Boundary.

(** C7.  On an encoder that holds [n] appended rows, RLE or delta,
    [ReconstructRow(0)], [ReconstructRow(-1)] and [ReconstructRow(n+1)]
    return the RowNotFound error and leave the encoder as it is; on the
    freshly created delta encoder [VerifyDeltaEncodingCorrectness]
    returns true. *)
Theorem boundary_behavior :
  (forall (rows : list rle.Row) (rle : rle.RLE) (rowID : Z),
      rle_spec.built rows rle ->
      rowID = 0 \/ rowID = -1 \/ rowID = len rows + 1 ->
      rle.ReconstructRow rowID rle
      = Done ((rle.zeroRow, Some (RowNotFound rowID)), rle))
  /\ (forall (rows : list delta_encoding.Row)
             (de : delta_encoding.DeltaEncoding) (rowID : Z),
         delta_spec.built rows de ->
         rowID = 0 \/ rowID = -1 \/ rowID = len rows + 1 ->
         delta_encoding.ReconstructRow rowID de
         = Done ((delta_encoding.zeroRow, Some (RowNotFound rowID)), de))
  /\ delta_encoding.VerifyDeltaEncodingCorrectness delta_encoding.InitDE
     = Done (true, delta_encoding.InitDE).
Proof.
  split; [|split].
  - intros rows rle rowID Hb Hrow. apply rle_ReconstructRow_outside.
    rewrite (rle_built_len rows rle Hb). pose proof (len_nonneg rows). lia.
  - intros rows de rowID Hb Hrow. apply ReconstructRow_outside.
    rewrite (delta_built_len rows de Hb). pose proof (len_nonneg rows). lia.
  - reflexivity.
Qed.

Lemma boundary_behavior_witness :
  rle.ReconstructRow 7 rle_spec.testRLE
  = Done ((rle.zeroRow, Some (RowNotFound 7)), rle_spec.testRLE)
  /\ delta_encoding.ReconstructRow 11 delta_spec.testDE
     = Done ((delta_encoding.zeroRow, Some (RowNotFound 11)), delta_spec.testDE).
Proof.
  destruct boundary_behavior as (Hrle & Hde & _). split.
  - apply (Hrle rle_spec.testRows rle_spec.testRLE 7); [reflexivity|].
    right. right. reflexivity.
  - apply (Hde delta_spec.testRows delta_spec.testDE 11); [reflexivity|].
    right. right. reflexivity.
Defined.
End Boundary.

(* ===================================================================== *)
(** * Run-length encoder: further properties                               *)
(* ===================================================================== *)

Section RleKeyColumn.
Import rle rle_spec.

Lemma noAdjacentEqual_tail r runs :
  noAdjacentEqual (r :: runs) -> noAdjacentEqual runs.
Proof. intros H i r1 r2 H1 H2. by apply (H (S i) r1 r2). Qed.

Lemma noAdjacentEqual_head r r' runs :
  noAdjacentEqual (r :: r' :: runs) -> ts r <> ts r'.
Proof. intros H. by apply (H 0%nat r r'). Qed.

Lemma keysIncreasing_tail r runs :
  keysIncreasing (r :: runs) -> keysIncreasing runs.
Proof.
  intros H i j r1 r2 Hij H1 H2. apply (H (S i) (S j) r1 r2); [lia|done..].
Qed.

Lemma leading_nonneg key keys : 0 <= leading key keys.
Proof. induction keys as [|k keys IH]; simpl; [done|]. destruct (_ =? _)%string; lia. Qed.

Lemma occurrences_nonneg key keys : 0 <= occurrences key keys.
Proof. induction keys as [|k keys IH]; simpl; [done|]. destruct (_ =? _)%string; lia. Qed.

Lemma leading_replicate key (n : nat) l :
  leading key (replicate n key ++ l) = Z.of_nat n + leading key l.
Proof.
  induction n as [|n IH]; [done|]. cbn [replicate app leading].
  rewrite String.eqb_refl, IH. lia.
Qed.

Lemma leading_replicate_other k key (n : nat) l :
  k <> key -> (0 < n)%nat -> leading key (replicate n k ++ l) = 0.
Proof.
  intros Hne Hn. destruct n as [|n]; [lia|]. cbn [replicate app leading].
  apply String.eqb_neq in Hne. by rewrite Hne.
Qed.

Lemma firstBlock_replicate key (n : nat) l :
  (0 < n)%nat ->
  firstBlock key (replicate n key ++ l) = Z.of_nat n + leading key l.
Proof.
  intros Hn. destruct n as [|n]; [lia|]. cbn [replicate app firstBlock].
  rewrite String.eqb_refl, leading_replicate. lia.
Qed.

Lemma firstBlock_replicate_other k key (n : nat) l :
  k <> key -> firstBlock key (replicate n k ++ l) = firstBlock key l.
Proof.
  intros Hne. apply String.eqb_neq in Hne.
  induction n as [|n IH]; [done|]. cbn [replicate app firstBlock].
  by rewrite Hne.
Qed.

Lemma occurrences_replicate key (n : nat) l :
  occurrences key (replicate n key ++ l) = Z.of_nat n + occurrences key l.
Proof.
  induction n as [|n IH]; [done|]. cbn [replicate app occurrences].
  rewrite String.eqb_refl, IH. lia.
Qed.

Lemma occurrences_replicate_other k key (n : nat) l :
  k <> key -> occurrences key (replicate n k ++ l) = occurrences key l.
Proof.
  intros Hne. apply String.eqb_neq in Hne.
  induction n as [|n IH]; [done|]. cbn [replicate app occurrences].
  by rewrite Hne, IH.
Qed.

Lemma occurrences_absent runs key :
  (forall (p : nat) r, runs !! p = Some r -> ts r <> key) ->
  occurrences key (expand runs) = 0.
Proof.
  induction runs as [|r runs IH]; intros H; simpl; [done|].
  rewrite occurrences_replicate_other by by apply (H 0%nat).
  apply IH. intros p r' Hp. by apply (H (S p)).
Qed.

(** The linear count, read on the key column the runs stand for: the
    length of the first block of the key. *)
Lemma scanCount_firstBlock runs key :
  Forall (fun r => 1 <= count r) runs -> noAdjacentEqual runs ->
  scanCount runs key
  = if firstBlock key (expand runs) =? 0 then (0, Some (KeyNotFound key))
    else (firstBlock key (expand runs), None).
Proof.
  induction runs as [|r runs IH]; intros Hc Hadj; [done|].
  apply Forall_cons in Hc as [Hr Hc]. simpl.
  destruct (String.eqb_spec (ts r) key) as [<-|Hne].
  - rewrite firstBlock_replicate by lia.
    assert (leading (ts r) (expand runs) = 0) as ->.
    { destruct runs as [|r' runs']; [done|]. simpl.
      apply Forall_cons in Hc as [Hr' _].
      apply leading_replicate_other; [|lia].
      intros Heq. by apply (noAdjacentEqual_head _ _ _ Hadj). }
    destruct (Z.eqb_spec (Z.of_nat (Z.to_nat (count r)) + 0) 0); [lia|].
    do 2 f_equal. lia.
  - rewrite firstBlock_replicate_other by done.
    apply IH; [done|]. by apply noAdjacentEqual_tail in Hadj.
Qed.

(** With increasing keys a key has one run, and the linear count is the
    number of rows that carry the key. *)
Lemma scanCount_occurrences runs key :
  Forall (fun r => 1 <= count r) runs -> keysIncreasing runs ->
  scanCount runs key
  = if occurrences key (expand runs) =? 0 then (0, Some (KeyNotFound key))
    else (occurrences key (expand runs), None).
Proof.
  induction runs as [|r runs IH]; intros Hc Hinc; [done|].
  apply Forall_cons in Hc as [Hr Hc]. simpl.
  destruct (String.eqb_spec (ts r) key) as [<-|Hne].
  - rewrite occurrences_replicate.
    rewrite occurrences_absent.
    + destruct (Z.eqb_spec (Z.of_nat (Z.to_nat (count r)) + 0) 0); [lia|].
      do 2 f_equal. lia.
    + intros p r' Hp Heq.
      pose proof (Hinc 0%nat (S p) r r' ltac:(lia) eq_refl Hp) as Hlt.
      apply compare_lt_neq in Hlt. congruence.
  - rewrite occurrences_replicate_other by done.
    apply IH; [done|]. by apply keysIncreasing_tail in Hinc.
Qed.

(** The binary search for a key on any encoder state: it ends without
    panic, and a count it returns is the count of a run with that key. *)
Lemma searchRuns_sound fuel key low high rle :
  addressable (TSRuns rle) ->
  0 <= low -> high < len (TSRuns rle) ->
  (Z.to_nat (high - low + 1) < fuel)%nat ->
  exists res : Z * option error,
    searchRuns fuel key low high rle = Done (res, rle)
    /\ (res = (0, Some (KeyNotFound key))
        \/ exists (i : nat) (r : TSRun),
             TSRuns rle !! i = Some r /\ ts r = key /\ res = (count r, None)).
Proof.
  intros Haddr. unfold addressable in Haddr. revert low high.
  induction fuel as [|fuel IH]; intros low high Hlow Hhigh Hfuel; [lia|].
  simpl. destruct (Z.leb_spec low high) as [Hle|Hgt].
  2:{ eexists. split; [reflexivity|]. by left. }
  unfold bind, get.
  destruct (midpoint low high Hlow Hle ltac:(lia) rle) as [-> Hmid].
  destruct (lookupZ (TSRuns rle) ((low + high) / 2)) as [run|] eqn:Hrun.
  2:{ apply lookupZ_None in Hrun. lia. }
  rewrite (at_Some _ _ _ _ Hrun). apply lookupZ_Some in Hrun as [_ Hrun].
  rewrite sub_id, add_id by (unfold in_range, min_int, max_int; lia).
  destruct (String.eqb_spec (ts run) key) as [Heq|_].
  - eexists. split; [reflexivity|]. right. by exists (Z.to_nat ((low + high) / 2)), run.
  - destruct (ts run <? key)%string; apply IH; lia.
Qed.
End RleKeyColumn.

Section RleExtras.
Import rle rle_spec.

(** X1.  Round trip of the run-length encoder: every sequence of
    [AppendRow] calls builds an encoder on which [ReconstructRow(i)]
    returns exactly the [i]-th appended row, id, value and key, whatever
    ids the rows carry. *)
Theorem rle_reconstruct_round_trip (rows : list Row) :
  addressable rows ->
  exists rle : RLE,
    built rows rle
    /\ forall (i : nat) (row : Row),
         rows !! i = Some row ->
         ReconstructRow (Z.of_nat i + 1) rle = Done ((row, None), rle).
Proof.
  intros Haddr.
  destruct (built_state rows) as (rle & Hb & _).
  { unfold addressable, max_int in *. lia. }
  exists rle. split; [done|]. intros i row Hrow.
  by destruct (rle_round_trip rows rle i row Haddr Hb Hrow) as (_ & _ & H).
Qed.

Lemma rle_reconstruct_round_trip_witness :
  addressable testRows
  /\ exists rle : RLE,
       built testRows rle
       /\ ReconstructRow 3 rle
          = Done (({| ID := 3; Value := 300; TS := "10:00:02" |}, None), rle).
Proof.
  assert (H : addressable testRows) by (unfold addressable; vm_compute; reflexivity).
  split; [exact H|].
  destruct (rle_reconstruct_round_trip testRows H) as (rle & Hb & Hrt).
  exists rle. split; [exact Hb|]. exact (Hrt 2%nat _ eq_refl).
Defined.

(** X2.  Both point queries answer the row id [i] in [1, n] with the key
    of the [i]-th appended row. *)
Theorem rle_lookups_return_row_key (rows : list Row) :
  addressable rows ->
  exists rle : RLE,
    built rows rle
    /\ forall (i : nat) (row : Row),
         rows !! i = Some row ->
         GetTSFromRowID (Z.of_nat i + 1) rle = Done (TS row, rle)
         /\ GetTSFromRowIDFaster (Z.of_nat i + 1) rle = Done (TS row, rle).
Proof.
  intros Haddr.
  destruct (built_state rows) as (rle & Hb & _).
  { unfold addressable, max_int in *. lia. }
  exists rle. split; [done|]. intros i row Hrow.
  destruct (rle_round_trip rows rle i row Haddr Hb Hrow) as (H1 & H2 & _).
  by split.
Qed.

Lemma rle_lookups_return_row_key_witness :
  addressable testRows
  /\ exists rle : RLE,
       built testRows rle
       /\ GetTSFromRowID 3 rle = Done ("10:00:02"%string, rle)
       /\ GetTSFromRowIDFaster 3 rle = Done ("10:00:02"%string, rle).
Proof.
  assert (H : addressable testRows) by (unfold addressable; vm_compute; reflexivity).
  split; [exact H|].
  destruct (rle_lookups_return_row_key testRows H) as (rle & Hb & Hkey).
  exists rle. split; [exact Hb|]. exact (Hkey 2%nat _ eq_refl).
Defined.

(** X3.  The encoding loses nothing: after any sequence of [AppendRow]
    calls [idList] and [valueList] are the id and value columns in append
    order, and the runs, each key repeated [count] times, spell out the
    key column. *)
Theorem rle_columns_lossless (rows : list Row) :
  addressable rows ->
  exists rle : RLE,
    built rows rle
    /\ idList rle = map ID rows
    /\ valueList rle = map Value rows
    /\ expand (TSRuns rle) = map TS rows.
Proof.
  intros Haddr.
  destruct (built_state rows) as (rle & Hb & _ & Hids & Hvals & Hruns).
  { unfold addressable, max_int in *. lia. }
  exists rle. split; [done|]. split; [done|]. split; [done|].
  rewrite Hruns. apply expand_foldl_pushRun.
Qed.

Lemma rle_columns_lossless_witness :
  addressable testRows
  /\ exists rle : RLE,
       built testRows rle
       /\ idList rle = map ID testRows
       /\ valueList rle = map Value testRows
       /\ expand (TSRuns rle) = map TS testRows.
Proof.
  assert (H : addressable testRows) by (unfold addressable; vm_compute; reflexivity).
  split; [exact H|]. exact (rle_columns_lossless testRows H).
Defined.

(** X4.  [tsRunEnds] is the prefix-sum index of [TSRuns]: the two slices
    have the same length, every run has a count of at least 1, entry [i]
    of [tsRunEnds] is the sum of the counts of the runs 0..i, and the
    counts add up to the number of appended rows. *)
Theorem rle_offsets_are_prefix_sums (rows : list Row) :
  addressable rows ->
  exists rle : RLE,
    built rows rle
    /\ length (tsRunEnds rle) = length (TSRuns rle)
    /\ total (TSRuns rle) = len rows
    /\ forall (i : nat) (r : TSRun),
         TSRuns rle !! i = Some r ->
         1 <= count r
         /\ tsRunEnds rle !! i = Some (total (take (S i) (TSRuns rle))).
Proof.
  intros Haddr.
  destruct (built_state rows) as (rle & Hb & [_ He Hc Ht _] & Hids & _).
  { unfold addressable, max_int in *. lia. }
  exists rle. split; [done|].
  split; [by rewrite He, endsFrom_length|].
  split; [rewrite Ht, Hids; unfold len; by rewrite length_map|].
  intros i r Hr. split.
  - rewrite Forall_lookup in Hc. by apply (Hc i).
  - rewrite He, endsFrom_lookup by by apply lookup_lt_Some in Hr. done.
Qed.

Lemma rle_offsets_are_prefix_sums_witness :
  addressable testRows
  /\ exists rle : RLE,
       built testRows rle
       /\ length (tsRunEnds rle) = length (TSRuns rle)
       /\ total (TSRuns rle) = len testRows
       /\ forall (i : nat) (r : TSRun),
            TSRuns rle !! i = Some r ->
            1 <= count r
            /\ tsRunEnds rle !! i = Some (total (take (S i) (TSRuns rle))).
Proof.
  assert (H : addressable testRows) by (unfold addressable; vm_compute; reflexivity).
  split; [exact H|]. exact (rle_offsets_are_prefix_sums testRows H).
Defined.

(** X5.  On an encoder that holds at least one row, both point queries
    answer every row id outside [1, n] with the empty key. *)
Theorem rle_lookups_reject_outside (rows : list Row) :
  addressable rows -> rows <> [] ->
  exists rle : RLE,
    built rows rle
    /\ forall rowID : Z,
         rowID <= 0 \/ len rows < rowID ->
         GetTSFromRowID rowID rle = Done (EmptyString, rle)
         /\ GetTSFromRowIDFaster rowID rle = Done (EmptyString, rle).
Proof.
  intros Haddr Hne.
  destruct (built_state rows) as (rle & Hb & _ & Hids & _).
  { unfold addressable, max_int in *. lia. }
  exists rle. split; [done|]. intros rowID Hout. split.
  - unfold GetTSFromRowID, bind, get, ret.
    destruct (Z.leb_spec rowID 0); [done|].
    destruct (Z.gtb_spec rowID (len (idList rle))) as [|Hle]; [done|].
    rewrite Hids in Hle. unfold len in *. rewrite length_map in Hle. lia.
  - apply (GetTSFromRowIDFaster_outside rows); [done..|].
    destruct Hout; [by left|by right].
Qed.

Lemma rle_lookups_reject_outside_witness :
  addressable testRows /\ testRows <> []
  /\ exists rle : RLE,
       built testRows rle
       /\ GetTSFromRowID 7 rle = Done (EmptyString, rle)
       /\ GetTSFromRowIDFaster 7 rle = Done (EmptyString, rle).
Proof.
  assert (H : addressable testRows) by (unfold addressable; vm_compute; reflexivity).
  assert (Hne : testRows <> []) by discriminate.
  split; [exact H|]. split; [exact Hne|].
  destruct (rle_lookups_reject_outside testRows H Hne) as (rle & Hb & Hout).
  exists rle. split; [exact Hb|]. apply Hout. right. vm_compute. reflexivity.
Defined.

(** X6.  [GetCountofTS] needs no precondition: on every built encoder it
    fails with KeyNotFound exactly when no appended row carries the key,
    and otherwise returns the length of the first block of consecutive
    rows that carry it. *)
Theorem GetCountofTS_first_block (rows : list Row) :
  addressable rows ->
  exists rle : RLE,
    built rows rle
    /\ forall key : string,
         GetCountofTS key rle
         = Done ((if firstBlock key (map TS rows) =? 0
                  then (0, Some (KeyNotFound key))
                  else (firstBlock key (map TS rows), None)), rle).
Proof.
  intros Haddr.
  destruct (built_state rows) as (rle & Hb & [_ _ Hc _ Hadj] & _ & _ & Hruns).
  { unfold addressable, max_int in *. lia. }
  exists rle. split; [done|]. intros key.
  unfold GetCountofTS, bind, get, ret.
  rewrite (scanCount_firstBlock _ key Hc Hadj).
  destruct (expand_foldl_pushRun (map TS rows)) as [_ Hexp].
  by rewrite Hruns, Hexp.
Qed.

Lemma GetCountofTS_first_block_witness :
  addressable recurringRows
  /\ exists rle : RLE,
       built recurringRows rle
       /\ GetCountofTS "a" rle = Done ((1, None), rle)
       /\ GetCountofTS "q" rle = Done ((0, Some (KeyNotFound "q")), rle).
Proof.
  assert (H : addressable recurringRows) by (unfold addressable; vm_compute; reflexivity).
  split; [exact H|].
  destruct (GetCountofTS_first_block recurringRows H) as (rle & Hb & Hcount).
  exists rle. split; [exact Hb|]. split.
  - exact (Hcount "a"%string).
  - exact (Hcount "q"%string).
Defined.

(** X7.  When the runs are ordered by key, both count queries return the
    number of appended rows that carry the key, and KeyNotFound when there
    is none. *)
Theorem count_is_number_of_rows_when_sorted (rows : list Row) :
  addressable rows ->
  exists rle : RLE,
    built rows rle
    /\ (keysOrdered rle ->
        forall key : string,
          let res :=
            if occurrences key (map TS rows) =? 0
            then (0, Some (KeyNotFound key))
            else (occurrences key (map TS rows), None) in
          GetCountofTS key rle = Done (res, rle)
          /\ GetCountofTSFaster key rle = Done (res, rle)).
Proof.
  intros Haddr.
  destruct (built_state rows) as (rle & Hb & Hinv & Hids & _ & Hruns).
  { unfold addressable, max_int in *. lia. }
  exists rle. split; [done|]. intros Hord key res.
  pose proof Hinv as [_ _ Hc Ht Hadj].
  pose proof (keysOrdered_increasing rle Hadj Hord) as Hinc.
  assert (Haddr' : addressable (TSRuns rle)).
  { unfold addressable in *. pose proof (total_ge_len _ Hc).
    rewrite Ht, Hids in H. unfold len in *. rewrite length_map in H. lia. }
  destruct (count_strategies_on_increasing rle key Hinc Haddr') as [H1 H2].
  rewrite H1, H2, (scanCount_occurrences _ key Hc Hinc).
  destruct (expand_foldl_pushRun (map TS rows)) as [_ Hexp].
  rewrite Hruns, Hexp. by split.
Qed.

Lemma count_is_number_of_rows_when_sorted_witness :
  addressable testRows /\ keysOrdered testRLE
  /\ GetCountofTS "10:00:02" testRLE = Done ((3, None), testRLE)
  /\ GetCountofTSFaster "10:00:02" testRLE = Done ((3, None), testRLE).
Proof.
  assert (H : addressable testRows) by (unfold addressable; vm_compute; reflexivity).
  split; [exact H|]. split; [exact testRLE_keysOrdered|].
  destruct (count_is_number_of_rows_when_sorted testRows H) as (rle & Hb & Hcount).
  rewrite (built_unique _ _ _ Hb built_testRows) in Hcount.
  exact (Hcount testRLE_keysOrdered "10:00:02"%string).
Defined.

(** X8.  Without any precondition on the key order, [GetCountofTSFaster]
    ends without panic and leaves the encoder as it is; it returns either
    KeyNotFound or the count of a run that carries the queried key, never
    the count of another key. *)
Theorem GetCountofTSFaster_sound (rle : RLE) (key : string) :
  addressable (TSRuns rle) ->
  exists res : Z * option error,
    GetCountofTSFaster key rle = Done (res, rle)
    /\ (res = (0, Some (KeyNotFound key))
        \/ exists (i : nat) (r : TSRun),
             TSRuns rle !! i = Some r /\ ts r = key /\ res = (count r, None)).
Proof.
  intros Haddr. pose proof Haddr as Hlen. unfold addressable in Hlen.
  pose proof (len_nonneg (TSRuns rle)).
  unfold GetCountofTSFaster, bind, get.
  rewrite sub_id by (unfold in_range, min_int, max_int; lia).
  apply searchRuns_sound; [done|lia|lia|]. unfold len. lia.
Qed.

Lemma GetCountofTSFaster_sound_witness :
  addressable (TSRuns unsortedRLE)
  /\ exists res : Z * option error,
       GetCountofTSFaster "c" unsortedRLE = Done (res, unsortedRLE)
       /\ (res = (0, Some (KeyNotFound "c"))
           \/ exists (i : nat) (r : TSRun),
                TSRuns unsortedRLE !! i = Some r /\ ts r = "c"%string
                /\ res = (count r, None)).
Proof.
  assert (H : addressable (TSRuns unsortedRLE))
    by (unfold addressable; vm_compute; reflexivity).
  split; [exact H|]. exact (GetCountofTSFaster_sound unsortedRLE "c" H).
Defined.
End RleExtras.

(* ===================================================================== *)
(** * rle/main.go, the first program: row lookups                          *)
(* ===================================================================== *)

Section FirstProgram.
Import rle rle_spec.

(** From row id 1 on, the fast lookup of the first program is the one of
    [pkg/rle]. *)
Lemma first_getTSFromRowIDFaster_positive g rowID :
  0 < rowID ->
  rle_main.getTSFromRowIDFaster rowID g = GetTSFromRowIDFaster rowID g.
Proof.
  intros Hpos. unfold rle_main.getTSFromRowIDFaster, GetTSFromRowIDFaster.
  destruct (Z.ltb_spec rowID 0); [lia|]. destruct (Z.leb_spec rowID 0); [lia|].
  done.
Qed.

Lemma first_lookups_at_zero rows g row :
  addressable rows -> built rows g -> rows !! 0%nat = Some row ->
  rle_main.getTSFromRowID 0 g = Done (TS row, g)
  /\ rle_main.getTSFromRowIDFaster 0 g = Done (TS row, g).
Proof.
  intros Haddr Hb Hrow.
  destruct (built_invariant rows g Haddr Hb) as (Hinv & Hids & _).
  destruct (rle_round_trip rows g 0 row Haddr Hb Hrow) as (Hslow & _ & _).
  pose proof Hinv as [_ He Hc Ht _].
  assert (Hn : 0 < len (idList g)).
  { rewrite Hids. destruct rows; [done|]. unfold len. simpl. lia. }
  unfold addressable in Haddr.
  assert (Hlen : len (idList g) = len rows).
  { rewrite Hids. unfold len. by rewrite length_map. }
  (* the first run carries the key of the first row *)
  destruct (TSRuns g) as [|r runs] eqn:Hruns.
  { simpl in Ht. lia. }
  apply Forall_cons in Hc as [Hr Hc].
  assert (Hkey : ts r = TS row).
  { unfold GetTSFromRowID, bind, get, ret in Hslow. rewrite Hruns in Hslow.
    change (Z.of_nat 0 + 1) with 1 in Hslow.
    destruct (Z.leb_spec 1 0); [lia|].
    destruct (Z.gtb_spec 1 (len (idList g))); [lia|].
    simpl in Hslow. destruct (Z.geb_spec (count r) 1); [|lia]. congruence. }
  split.
  - unfold rle_main.getTSFromRowID, bind, get, ret. rewrite Hruns.
    destruct (Z.ltb_spec 0 0); [lia|].
    destruct (Z.geb_spec 0 (len (idList g))); [lia|].
    simpl. destruct (Z.geb_spec (count r) 0); [|lia]. by rewrite Hkey.
  - assert (Hends : tsRunEnds g = (0 + count r) :: endsFrom (0 + count r) runs)
      by (by rewrite He).
    assert (Hlenends : len (tsRunEnds g) = 1 + len runs).
    { rewrite Hends. unfold len. simpl. rewrite endsFrom_length. lia. }
    assert (Hruns_le : 1 + len runs <= len rows).
    { pose proof (total_ge_len _ Hc). simpl in Ht. lia. }
    pose proof (len_nonneg runs).
    destruct (lookupZ (tsRunEnds g) (len (tsRunEnds g) - 1)) as [e|] eqn:Hlast.
    2:{ apply lookupZ_None in Hlast. lia. }
    assert (He1 : 1 <= e).
    { apply lookupZ_Some in Hlast as [_ Hlast].
      remember (Z.to_nat (len (tsRunEnds g) - 1)) as j eqn:Hj. clear Hj.
      rewrite He in Hlast.
      apply endsFrom_lookup_inv in Hlast as [Hi ->].
      assert (Hall : Forall (fun r => 1 <= count r) (r :: runs))
        by by apply Forall_cons.
      pose proof (total_take_lt (r :: runs) 0 (S j) Hall) as Hlt.
      simpl in Hlt, Hi. specialize (Hlt ltac:(lia) ltac:(lia)).
      simpl. lia. }
    unfold rle_main.getTSFromRowIDFaster. unfold bind at 1, get.
    destruct (Z.ltb_spec 0 0); [lia|].
    rewrite sub_id by (unfold in_range, min_int, max_int; lia).
    unfold bind at 1. unfold bind at 1. rewrite (at_Some _ _ _ _ Hlast).
    unfold ret. destruct (Z.gtb_spec 0 e); [lia|].
    destruct (searchEnds_spec (S (length (tsRunEnds g))) 0 0
                (len (tsRunEnds g) - 1) g) as (k & Hk & _ & Hk1 & _).
    + intros a b x y Hab Hx Hy. rewrite He in Hx, Hy.
      apply endsFrom_lookup_inv in Hx as [Ha ->].
      apply endsFrom_lookup_inv in Hy as [Hb' ->].
      pose proof (total_take_le (r :: runs) (S a) (S b)
                    ltac:(by apply Forall_cons)). lia.
    + unfold addressable. lia.
    + lia.
    + lia.
    + lia.
    + intros a x Ha. lia.
    + intros a x Ha Hx. apply lookup_lt_Some in Hx. unfold len in Ha. lia.
    + unfold len. lia.
    + assert (k = 0%nat) as ->.
      { destruct k as [|k]; [done|]. exfalso.
        specialize (Hk1 0%nat (0 + count r) ltac:(lia)).
        rewrite Hends in Hk1. specialize (Hk1 eq_refl). lia. }
      unfold bind. rewrite Hk.
      rewrite (lookupZ_of_nat_at _ 0 r) by (by rewrite Hruns).
      by rewrite Hkey.
Qed.

(** X9.  The first program of [rle/main.go] checks row ids against
    [0 <= rowID < len(idList)] in the linear lookup and against
    [0 <= rowID <= tsRunEnds[last]] in the fast one, while both count rows
    from 1.  The fast lookup answers every row id in [1, n] with the key of
    that row; the linear one does so below [n] and returns the empty key
    for the last row, [rowID = n]; and both answer row id 0 with the key
    of the first row. *)
Theorem first_program_lookup_bounds (rows : list Row) :
  addressable rows ->
  exists g : RLE,
    built rows g
    /\ (forall (i : nat) (row : Row),
           rows !! i = Some row ->
           rle_main.getTSFromRowIDFaster (Z.of_nat i + 1) g = Done (TS row, g)
           /\ rle_main.getTSFromRowID (Z.of_nat i + 1) g
              = Done ((if Z.of_nat i + 1 <? len rows then TS row
                       else EmptyString), g))
    /\ (forall row : Row,
           rows !! 0%nat = Some row ->
           rle_main.getTSFromRowID 0 g = Done (TS row, g)
           /\ rle_main.getTSFromRowIDFaster 0 g = Done (TS row, g)).
Proof.
  intros Haddr.
  destruct (built_state rows) as (g & Hb & Hinv & Hids & _).
  { unfold addressable, max_int in *. lia. }
  exists g. split; [done|]. split.
  - intros i row Hrow.
    destruct (rle_round_trip rows g i row Haddr Hb Hrow) as (Hslow & Hfast & _).
    split; [by rewrite first_getTSFromRowIDFaster_positive by lia|].
    assert (Hlen : len (idList g) = len rows).
    { rewrite Hids. unfold len. by rewrite length_map. }
    assert (Hi : Z.of_nat i + 1 <= len rows).
    { apply lookup_lt_Some in Hrow. unfold len. lia. }
    unfold rle_main.getTSFromRowID, bind, get, ret.
    unfold GetTSFromRowID, bind, get, ret in Hslow.
    destruct (Z.ltb_spec (Z.of_nat i + 1) 0); [lia|].
    destruct (Z.leb_spec (Z.of_nat i + 1) 0); [lia|].
    destruct (Z.gtb_spec (Z.of_nat i + 1) (len (idList g))); [lia|].
    rewrite Hlen.
    destruct (Z.geb_spec (Z.of_nat i + 1) (len rows));
      destruct (Z.ltb_spec (Z.of_nat i + 1) (len rows)); try lia; done.
  - intros row Hrow. by apply (first_lookups_at_zero rows).
Qed.

Lemma first_program_lookup_bounds_witness :
  addressable testRows
  /\ exists g : RLE,
       built testRows g
       /\ rle_main.getTSFromRowIDFaster 6 g = Done ("10:00:03"%string, g)
       /\ rle_main.getTSFromRowID 6 g = Done (EmptyString, g)
       /\ rle_main.getTSFromRowID 0 g = Done ("10:00:00"%string, g)
       /\ rle_main.getTSFromRowIDFaster 0 g = Done ("10:00:00"%string, g).
Proof.
  assert (H : addressable testRows) by (unfold addressable; vm_compute; reflexivity).
  split; [exact H|].
  destruct (first_program_lookup_bounds testRows H) as (g & Hb & Hpos & Hzero).
  exists g. split; [exact Hb|].
  destruct (Hpos 5%nat _ eq_refl) as [Hfast Hslow].
  destruct (Hzero _ eq_refl) as [Hslow0 Hfast0].
  split; [exact Hfast|]. split; [exact Hslow|]. split; [exact Hslow0|exact Hfast0].
Defined.

(** X10.  [reconstructRow] of the first program indexes [idList] and
    [valueList] from 0 but asks the fast lookup, which counts rows from 1,
    for the key: [reconstructRow(r)] returns the id and value of the row of
    index [r] next to the key of the row of index [r - 1] (of row 0 for
    [r = 0]), and the zero row for [r < 0] or [r >= n]. *)
Theorem first_program_reconstructRow (rows : list Row) :
  addressable rows ->
  exists g : RLE,
    built rows g
    /\ (forall (i : nat) (prev row : Row),
           rows !! i = Some prev -> rows !! S i = Some row ->
           rle_main.reconstructRow (Z.of_nat (S i)) g
           = Done ({| ID := ID row; Value := Value row; TS := TS prev |}, g))
    /\ (forall row : Row,
           rows !! 0%nat = Some row ->
           rle_main.reconstructRow 0 g = Done (row, g))
    /\ (forall rowID : Z,
           rowID < 0 \/ len rows <= rowID ->
           rle_main.reconstructRow rowID g = Done (zeroRow, g)).
Proof.
  intros Haddr.
  destruct (built_state rows) as (g & Hb & Hinv & Hids & Hvals & _).
  { unfold addressable, max_int in *. lia. }
  assert (Hlen : len (idList g) = len rows).
  { rewrite Hids. unfold len. by rewrite length_map. }
  exists g. split; [done|]. split; [|split].
  - intros i prev row Hprev Hrow.
    destruct (rle_round_trip rows g i prev Haddr Hb Hprev) as (_ & Hfast & _).
    assert (Hi : Z.of_nat (S i) < len rows).
    { apply lookup_lt_Some in Hrow. unfold len. lia. }
    unfold rle_main.reconstructRow. unfold bind at 1, get.
    destruct (Z.ltb_spec (Z.of_nat (S i)) 0); [lia|].
    destruct (Z.geb_spec (Z.of_nat (S i)) (len (idList g))); [lia|].
    cbn [orb]. unfold bind at 1.
    rewrite first_getTSFromRowIDFaster_positive by lia.
    replace (Z.of_nat (S i)) with (Z.of_nat i + 1) at 1 by lia. rewrite Hfast.
    unfold bind at 1.
    rewrite (lookupZ_of_nat_at _ _ (ID row))
      by (by rewrite Hids, list_lookup_fmap, Hrow).
    unfold bind.
    by rewrite (lookupZ_of_nat_at _ _ (Value row))
      by (by rewrite Hvals, list_lookup_fmap, Hrow).
  - intros row Hrow.
    destruct (first_lookups_at_zero rows g row Haddr Hb Hrow) as [_ Hfast].
    assert (Hn : 0 < len rows) by (destruct rows; [done|unfold len; simpl; lia]).
    unfold rle_main.reconstructRow. unfold bind at 1, get.
    destruct (Z.ltb_spec 0 0); [lia|].
    destruct (Z.geb_spec 0 (len (idList g))); [lia|].
    cbn [orb]. unfold bind at 1. rewrite Hfast.
    unfold bind at 1.
    rewrite (lookupZ_of_nat_at _ 0 (ID row))
      by (by rewrite Hids, list_lookup_fmap, Hrow).
    unfold bind.
    rewrite (lookupZ_of_nat_at _ 0 (Value row))
      by (by rewrite Hvals, list_lookup_fmap, Hrow).
    by destruct row.
  - intros rowID Hout. unfold rle_main.reconstructRow, bind, get, ret.
    destruct (Z.ltb_spec rowID 0); [done|].
    destruct (Z.geb_spec rowID (len (idList g))); [done|lia].
Qed.

Lemma first_program_reconstructRow_witness :
  addressable testRows
  /\ exists g : RLE,
       built testRows g
       /\ rle_main.reconstructRow 2 g
          = Done ({| ID := 3; Value := 300; TS := "10:00:00" |}, g)
       /\ rle_main.reconstructRow 6 g = Done (zeroRow, g).
Proof.
  assert (H : addressable testRows) by (unfold addressable; vm_compute; reflexivity).
  split; [exact H|].
  destruct (first_program_reconstructRow testRows H) as (g & Hb & Hrow & _ & Hout).
  exists g. split; [exact Hb|]. split.
  - exact (Hrow 1%nat _ _ eq_refl eq_refl).
  - apply Hout. right. vm_compute. discriminate.
Defined.
End FirstProgram.

(* ===================================================================== *)
(** * Delta encoder: further properties                                    *)
(* ===================================================================== *)

Section DeltaTableFacts.
Import delta_encoding delta_spec.

(** [ReconstructTable]'s loop, when every id is answered with a row. *)
Lemma reconstructEach_map (f : Z -> Row) de ids acc :
  (forall id, id ∈ ids -> ReconstructRow id de = Done ((f id, None), de)) ->
  reconstructEach ids acc de = Done ((acc ++ map f ids, None), de).
Proof.
  revert acc. induction ids as [|id ids IH]; intros acc H; simpl.
  - by rewrite app_nil_r.
  - unfold bind. rewrite (H id) by by left.
    rewrite IH by (intros id' Hin; apply H; by right).
    by rewrite <- app_assoc.
Qed.

(** The comparison loop of the verifier, on a table computed row by row. *)
Lemma compareRows_map (f : Row -> Row) de pre suf dpre :
  originalRows de = pre ++ suf -> length dpre = length pre ->
  addressable (pre ++ suf) ->
  compareRows (length suf) (len pre) (dpre ++ map f suf) de
  = Done (forallb (fun row => Row_eqb (f row) row) suf, de).
Proof.
  revert pre dpre. induction suf as [|r suf IH]; intros pre dpre Horig Hlen Haddr;
    [done|].
  cbn [length compareRows map forallb]. unfold bind, get. rewrite Horig.
  unfold len at 1 2.
  rewrite (lookupZ_of_nat_at (dpre ++ f r :: map f suf) _ (f r))
    by (rewrite lookup_app_r by lia; by rewrite Hlen, Nat.sub_diag).
  rewrite (lookupZ_of_nat_at (pre ++ r :: suf) _ r)
    by (rewrite lookup_app_r by lia; by rewrite Nat.sub_diag).
  destruct (Row_eqb (f r) r); [|done]. cbn [andb].
  fold (len pre).
  assert (len pre + len (r :: suf) < 2 ^ 61) as Hbound.
  { unfold addressable in Haddr. by rewrite len_app in Haddr. }
  pose proof (len_nonneg suf). pose proof (len_nonneg pre).
  assert (len (r :: suf) = 1 + len suf) as Hcons by (unfold len; simpl; lia).
  rewrite add_id by (unfold in_range, min_int, max_int; lia).
  replace (len pre + 1) with (len (pre ++ [r]))
    by (rewrite len_app; unfold len; simpl; lia).
  replace (dpre ++ f r :: map f suf) with ((dpre ++ [f r]) ++ map f suf)
    by (by rewrite <- app_assoc).
  apply IH.
  - by rewrite <- app_assoc.
  - rewrite !length_app. simpl. lia.
  - by rewrite <- app_assoc.
Qed.

Lemma forallb_agree {A} (f g : A -> bool) (l : list A) :
  (forall x, x ∈ l -> f x = g x) -> forallb f l = forallb g l.
Proof.
  induction l as [|x l IH]; intros H; simpl; [done|].
  rewrite (H x) by by left. rewrite IH; [done|].
  intros y Hy. apply H. by right.
Qed.

Lemma forallb_false_elem {A} (f : A -> bool) (l : list A) x :
  x ∈ l -> f x = false -> forallb f l = false.
Proof.
  intros Hin Hx. destruct (forallb f l) eqn:Hall; [|done].
  rewrite forallb_forall in Hall. rewrite <- Hx. symmetry.
  apply Hall. by apply list_elem_of_In.
Qed.
End DeltaTableFacts.

Section DeltaExtras.
Import delta_encoding delta_spec.

(** X11.  What [AppendRow] stores: [idList] and [originalRows] are the ids
    and the rows in append order; the delta of the first row is 0, the
    delta of every later row is its value (timestamp) minus the one of the
    row before it, in 64-bit arithmetic; and [lastValue], [lastTs] are
    those of the last row. *)
Theorem delta_columns (rows : list Row) :
  addressable rows ->
  exists de : DeltaEncoding,
    built rows de
    /\ idList de = map ID rows
    /\ originalRows de = rows
    /\ length (deltaValueList de) = length rows
    /\ length (deltaTsList de) = length rows
    /\ (forall row : Row,
           rows !! 0%nat = Some row ->
           deltaValueList de !! 0%nat = Some 0
           /\ deltaTsList de !! 0%nat = Some 0)
    /\ (forall (i : nat) (prev row : Row),
           rows !! i = Some prev -> rows !! S i = Some row ->
           deltaValueList de !! S i = Some (Value row ⊖ Value prev)
           /\ deltaTsList de !! S i = Some (TS row ⊖ TS prev))
    /\ (forall row : Row,
           last rows = Some row ->
           lastValue de = Value row /\ lastTs de = TS row).
Proof.
  intros Haddr.
  destruct (delta_built_state rows) as (de & Hb & Hinv & _).
  { unfold addressable, max_int in *. lia. }
  destruct Hinv as [Hids Horig _ Hlast [Hlv Hdv] [Hlt Hdt] _ _].
  exists de. repeat (split; [done|]). split; [|split; [|done]].
  - intros row Hrow.
    assert (0 < length rows)%nat by by apply lookup_lt_Some in Hrow.
    destruct (lookup_lt_is_Some_2 (deltaValueList de) 0) as [dv Hv]; [lia|].
    destruct (lookup_lt_is_Some_2 (deltaTsList de) 0) as [dt Ht]; [lia|].
    by rewrite Hv, Ht, (Hdv _ _ Hv), (Hdt _ _ Ht).
  - intros i prev row Hprev Hrow.
    assert (S i < length rows)%nat by by apply lookup_lt_Some in Hrow.
    destruct (lookup_lt_is_Some_2 (deltaValueList de) (S i)) as [dv Hv]; [lia|].
    destruct (lookup_lt_is_Some_2 (deltaTsList de) (S i)) as [dt Ht]; [lia|].
    rewrite Hv, Ht, (Hdv _ _ Hv), (Hdt _ _ Ht). simpl.
    by rewrite (rowAt_lookup _ _ _ Hprev), (rowAt_lookup _ _ _ Hrow).
Qed.

Lemma delta_columns_witness :
  addressable testRows
  /\ exists de : DeltaEncoding,
       built testRows de
       /\ deltaValueList de !! 4%nat = Some (20 ⊖ 30)
       /\ deltaTsList de !! 4%nat = Some (1008 ⊖ 1006).
Proof.
  assert (H : addressable testRows) by (unfold addressable; vm_compute; reflexivity).
  split; [exact H|].
  destruct (delta_columns testRows H)
    as (de & Hb & _ & _ & _ & _ & _ & Hdelta & _).
  exists de. split; [exact Hb|].
  exact (Hdelta 3%nat _ _ eq_refl eq_refl).
Defined.

(** X12.  [ReconstructTable] after a sequence of [AppendRow]s.  When
    every appended id lies in [1, n], it returns, for each appended row
    in order, the id of the row with the value and timestamp of the row
    at that position, and no error; with contiguous 1-based ids this is
    the appended table itself.  When some id lies outside [1, n], it
    returns no rows and the "row not found" error of such an id. *)
Theorem ReconstructTable_after_appends (rows : list Row) :
  addressable rows -> Forall rowInRange rows ->
  exists de : DeltaEncoding,
    built rows de
    /\ (Forall (fun row => 1 <= ID row <= len rows) rows ->
        ReconstructTable de
        = Done ((map (fun row =>
                        {| ID := ID row;
                           Value := Value (rowAt rows (Z.to_nat (ID row - 1)));
                           TS := TS (rowAt rows (Z.to_nat (ID row - 1))) |})
                     rows, None), de))
    /\ (contiguousIds rows -> ReconstructTable de = Done ((rows, None), de))
    /\ (~ Forall (fun row => 1 <= ID row <= len rows) rows ->
        exists id : Z,
          id ∈ map ID rows /\ (id <= 0 \/ len rows < id)
          /\ ReconstructTable de = Done (([], Some (RowNotFound id)), de)).
Proof.
  intros Haddr Hrange.
  destruct (delta_built_state rows) as (de & Hb & Hinv & _).
  { unfold addressable, max_int in *. lia. }
  exists de. split; [done|].
  pose proof (inv_ids _ _ Hinv) as Hids.
  assert (Hin : Forall (fun row => 1 <= ID row <= len rows) rows ->
            ReconstructTable de
            = Done ((map (fun row =>
                            {| ID := ID row;
                               Value := Value (rowAt rows (Z.to_nat (ID row - 1)));
                               TS := TS (rowAt rows (Z.to_nat (ID row - 1))) |})
                         rows, None), de)).
  { intros Hall. unfold ReconstructTable, bind, get. rewrite Hids.
    rewrite (reconstructEach_map
               (fun id => {| ID := id;
                             Value := Value (rowAt rows (Z.to_nat (id - 1)));
                             TS := TS (rowAt rows (Z.to_nat (id - 1))) |})).
    - by rewrite map_map.
    - intros id Hid. apply list_elem_of_fmap in Hid as (row & -> & Hid).
      rewrite Forall_forall in Hall. specialize (Hall row Hid).
      destruct (lookup_lt_is_Some_2 rows (Z.to_nat (ID row - 1))) as [r Hr].
      { unfold len in Hall. lia. }
      pose proof (ReconstructRow_spec rows de _ r Hinv Haddr Hr) as Hrow.
      replace (Z.of_nat (Z.to_nat (ID row - 1)) + 1) with (ID row) in Hrow by lia.
      rewrite Hrow, (rowAt_lookup _ _ _ Hr).
      rewrite Forall_lookup in Hrange.
      destruct (Hrange _ r Hr) as [Hv Ht]. by rewrite !wrap_id. }
  split; [exact Hin|]. split.
  - intros Hcontig. rewrite Hin.
    + do 3 f_equal. rewrite <- (map_id rows) at 2.
      apply map_ext_in. intros row Hrow.
      apply list_elem_of_In, list_elem_of_lookup in Hrow as [i Hi].
      rewrite (Hcontig i row Hi).
      replace (Z.to_nat (Z.of_nat i + 1 - 1)) with i by lia.
      rewrite (rowAt_lookup _ _ _ Hi), <- (Hcontig i row Hi). by destruct row.
    + apply Forall_lookup. intros i row Hi. rewrite (Hcontig i row Hi).
      apply lookup_lt_Some in Hi. unfold len. lia.
  - intros Hex. apply not_Forall_Exists in Hex; [|intros x; apply _].
    assert (Hex' : Exists (fun id => id <= 0 \/ len rows < id) (map ID rows)).
    { apply Exists_fmap. eapply Exists_impl; [exact Hex|]. simpl. lia. }
    unfold ReconstructTable, bind, get. rewrite Hids.
    apply (reconstructEach_fails rows de (map ID rows) [] Hinv Haddr Hex').
Qed.

Lemma ReconstructTable_after_appends_witness :
  addressable testRows /\ Forall rowInRange testRows
  /\ exists de : DeltaEncoding,
       built testRows de
       /\ ReconstructTable de = Done ((testRows, None), de).
Proof.
  assert (H : addressable testRows) by (unfold addressable; vm_compute; reflexivity).
  split; [exact H|]. split; [exact testRows_in_range|].
  destruct (ReconstructTable_after_appends testRows H testRows_in_range)
    as (de & Hb & _ & Htable & _).
  exists de. split; [exact Hb|]. exact (Htable testRows_contiguous).
Defined.

(** X13.  What the verifier decides on an encoder built by [AppendRow]:
    it returns true exactly when, for every appended row, the id of the
    row lies in [1, n] and the row at that position has the same value and
    timestamp.  A table whose ids are not the positions of its rows can so
    fail the check with no entry corrupted. *)
Theorem verifier_decides (rows : list Row) :
  addressable rows -> Forall rowInRange rows ->
  exists de : DeltaEncoding,
    built rows de
    /\ VerifyDeltaEncodingCorrectness de
       = Done (forallb (rowPasses rows) rows, de).
Proof.
  intros Haddr Hrange.
  destruct (delta_built_state rows) as (de & Hb & Hinv & _).
  { unfold addressable, max_int in *. lia. }
  exists de. split; [done|].
  pose proof Hinv as [Hids Horig _ _ _ _ _ _].
  unfold VerifyDeltaEncodingCorrectness. unfold bind at 1.
  destruct (decide (Forall (fun row => 1 <= ID row <= len rows) rows)) as [Hall|Hex].
  - (* every id designates a row *)
    set (f := fun row : Row =>
                {| ID := ID row;
                   Value := Value (rowAt rows (Z.to_nat (ID row - 1)));
                   TS := TS (rowAt rows (Z.to_nat (ID row - 1))) |}).
    assert (Htable : ReconstructTable de = Done ((map f rows, None), de)).
    { unfold ReconstructTable, bind, get. rewrite Hids.
      rewrite (reconstructEach_map
                 (fun id => {| ID := id;
                               Value := Value (rowAt rows (Z.to_nat (id - 1)));
                               TS := TS (rowAt rows (Z.to_nat (id - 1))) |})).
      - by rewrite map_map.
      - intros id Hin. apply list_elem_of_fmap in Hin as (row & -> & Hin).
        rewrite Forall_forall in Hall. specialize (Hall row Hin).
        destruct (lookup_lt_is_Some_2 rows (Z.to_nat (ID row - 1))) as [r Hr].
        { unfold len in Hall. lia. }
        pose proof (ReconstructRow_spec rows de _ r Hinv Haddr Hr) as Hrow.
        replace (Z.of_nat (Z.to_nat (ID row - 1)) + 1) with (ID row) in Hrow by lia.
        rewrite Hrow, (rowAt_lookup _ _ _ Hr).
        rewrite Forall_lookup in Hrange.
        destruct (Hrange _ r Hr) as [Hv Ht]. by rewrite !wrap_id. }
    rewrite Htable. unfold bind, get. rewrite Horig.
    pose proof (compareRows_map f de [] rows [] Horig eq_refl Haddr) as Hcmp.
    change (compareRows (length rows) 0 (map f rows) de
            = Done (forallb (fun row => Row_eqb (f row) row) rows, de)) in Hcmp.
    rewrite Hcmp. do 2 f_equal. apply forallb_agree. intros row Hin.
    rewrite Forall_forall in Hall. specialize (Hall row Hin).
    destruct (lookup_lt_is_Some_2 rows (Z.to_nat (ID row - 1))) as [r Hr].
    { unfold len in Hall. lia. }
    unfold rowPasses, lookupZ, Row_eqb, f.
    destruct (Z.ltb_spec (ID row - 1) 0); [lia|].
    rewrite Hr, (rowAt_lookup _ _ _ Hr). simpl. by rewrite Z.eqb_refl.
  - (* some id designates no row *)
    apply not_Forall_Exists in Hex; [|intros x; apply _].
    assert (Hex' : Exists (fun id => id <= 0 \/ len rows < id) (map ID rows)).
    { apply Exists_fmap. eapply Exists_impl; [exact Hex|]. simpl. lia. }
    unfold ReconstructTable, bind at 1, get. rewrite Hids.
    destruct (reconstructEach_fails rows de (map ID rows) [] Hinv Haddr Hex')
      as (id & _ & _ & ->).
    unfold ret.
    apply Exists_exists in Hex as (row & Hin & Hrow).
    rewrite (forallb_false_elem _ _ row Hin); [done|].
    unfold rowPasses.
    destruct (lookupZ rows (ID row - 1)) as [r|] eqn:Hr; [|done].
    apply lookupZ_Some in Hr as [Hr _]. simpl in Hrow. lia.
Qed.

Lemma verifier_decides_witness :
  addressable sparseRows /\ Forall rowInRange sparseRows
  /\ exists de : DeltaEncoding,
       built sparseRows de
       /\ VerifyDeltaEncodingCorrectness de = Done (false, de).
Proof.
  assert (H : addressable sparseRows) by (unfold addressable; vm_compute; reflexivity).
  assert (Hr : Forall rowInRange sparseRows)
    by (repeat constructor; vm_compute; intros Hc; discriminate Hc).
  split; [exact H|]. split; [exact Hr|].
  exact (verifier_decides sparseRows H Hr).
Defined.
End DeltaExtras.

(* ===================================================================== *)
(** * Delta encoder: reconstruction on any state                           *)
(* ===================================================================== *)

Section DeltaWindow.
Import delta_encoding delta_spec.

Lemma window_cons l (ind stop : nat) x :
  l !! ind = Some x -> (ind <= stop)%nat ->
  window l ind stop = x :: window l (S ind) stop.
Proof.
  intros Hx Hle. unfold window. rewrite (drop_S _ _ _ Hx).
  replace (S stop - ind)%nat with (S (S stop - S ind)) by lia. done.
Qed.

Lemma window_empty l (stop : nat) : window l (S stop) stop = [].
Proof. unfold window. by rewrite Nat.sub_diag. Qed.

Lemma window_snoc l (start stop : nat) x :
  l !! stop = Some x -> (start <= stop)%nat ->
  window l start stop = take (stop - start) (drop start l) ++ [x].
Proof.
  intros Hx Hle. unfold window.
  replace (S stop - start)%nat with (S (stop - start)) by lia.
  apply take_S_r. rewrite lookup_drop.
  by replace (start + (stop - start))%nat with stop by lia.
Qed.

Lemma window_insert_last l (start stop : nat) x y :
  l !! stop = Some x -> (start <= stop)%nat ->
  window (<[stop := y]> l) start stop
  = take (stop - start) (drop start l) ++ [y].
Proof.
  intros Hx Hle.
  assert (stop < length l)%nat by by apply lookup_lt_Some in Hx.
  rewrite (window_snoc _ _ _ y) by (by rewrite ?list_lookup_insert_eq).
  f_equal. rewrite drop_insert_ge by done. by rewrite take_insert_ge.
Qed.


(** The loop of [ReconstructRow] on any state: it adds the deltas of the
    indices [ind .. rowIndex], in order, to the value and timestamp it
    starts from. *)
Lemma addDeltas_window de (rowIndex : nat) fuel (ind : nat) row :
  Z.of_nat rowIndex < 2 ^ 61 ->
  (rowIndex < length (deltaValueList de))%nat ->
  (rowIndex < length (deltaTsList de))%nat ->
  (ind <= S rowIndex)%nat -> (S rowIndex - ind < fuel)%nat ->
  addDeltas fuel (Z.of_nat ind) (Z.of_nat rowIndex) row de
  = Done ({| ID := ID row;
             Value := foldl Go.add (Value row)
                        (window (deltaValueList de) ind rowIndex);
             TS := foldl Go.add (TS row)
                     (window (deltaTsList de) ind rowIndex) |}, de).
Proof.
  intros Hsmall Hdv Hdt. revert ind row.
  induction fuel as [|fuel IH]; intros ind row Hind Hfuel; [lia|].
  cbn [addDeltas].
  destruct (Z.leb_spec (Z.of_nat ind) (Z.of_nat rowIndex)) as [Hle|Hgt].
  - destruct (lookup_lt_is_Some_2 (deltaValueList de) ind) as [dv Hv]; [lia|].
    destruct (lookup_lt_is_Some_2 (deltaTsList de) ind) as [dt Ht]; [lia|].
    unfold bind at 1, get. unfold bind at 1.
    rewrite (lookupZ_of_nat_at _ _ _ _ Hv). unfold bind at 1.
    rewrite (lookupZ_of_nat_at _ _ _ _ Ht).
    rewrite add_id by (unfold in_range, min_int, max_int; lia).
    replace (Z.of_nat ind + 1) with (Z.of_nat (S ind)) by lia.
    rewrite (IH (S ind)) by lia. cbn [ID Value TS].
    rewrite (window_cons _ _ _ _ Hv), (window_cons _ _ _ _ Ht) by lia. done.
  - assert (ind = S rowIndex) as -> by lia.
    rewrite !window_empty. by destruct row.
Qed.

(** [ReconstructRow] on any state whose slices are long enough. *)
Lemma ReconstructRow_window de (i : nat) v t :
  0 < checkpointInterval de -> addressable (idList de) ->
  (i < length (idList de))%nat ->
  (i < length (deltaValueList de))%nat ->
  (i < length (deltaTsList de))%nat ->
  checkpointValues de !! Z.to_nat (Z.of_nat i / checkpointInterval de) = Some v ->
  checkpointTs de !! Z.to_nat (Z.of_nat i / checkpointInterval de) = Some t ->
  ReconstructRow (Z.of_nat i + 1) de
  = Done (({| ID := Z.of_nat i + 1;
              Value := foldl Go.add v
                         (window (deltaValueList de)
                            (Z.to_nat (Z.of_nat i / checkpointInterval de
                                       * checkpointInterval de)) i);
              TS := foldl Go.add t
                      (window (deltaTsList de)
                         (Z.to_nat (Z.of_nat i / checkpointInterval de
                                    * checkpointInterval de)) i) |}, None), de).
Proof.
  intros Hk Haddr Hi Hdv Hdt Hv Ht. unfold addressable, len in Haddr.
  set (k := checkpointInterval de) in *.
  assert (Hg0 : 0 <= Z.of_nat i / k) by (apply Z.div_pos; lia).
  assert (Hgk : Z.of_nat i / k * k <= Z.of_nat i).
  { pose proof (Z.mul_div_le (Z.of_nat i) k Hk). lia. }
  unfold ReconstructRow. unfold bind at 1, get.
  destruct (Z.leb_spec (Z.of_nat i + 1) 0); [lia|].
  destruct (Z.gtb_spec (Z.of_nat i + 1) (len (idList de))) as [Hgt|_].
  { unfold len in Hgt. lia. }
  cbn [orb].
  rewrite sub_id by (unfold in_range, min_int, max_int; lia).
  replace (Z.of_nat i + 1 - 1) with (Z.of_nat i) by lia.
  fold k. unfold bind at 1. rewrite quo_pos by (unfold max_int; lia).
  assert (Hq : forall {A} (l : list A) x,
            l !! Z.to_nat (Z.of_nat i / k) = Some x ->
            (l @ (Z.of_nat i / k)) de = Done (x, de)).
  { intros A l x Hx. apply at_Some.
    replace (Z.of_nat i / k) with (Z.of_nat (Z.to_nat (Z.of_nat i / k))) by lia.
    by rewrite lookupZ_of_nat. }
  unfold bind at 1. rewrite (Hq _ _ _ Hv).
  unfold bind at 1. rewrite (Hq _ _ _ Ht).
  rewrite mul_id by (unfold in_range, min_int, max_int; nia).
  assert (Hs : Z.of_nat i / k * k
               = Z.of_nat (Z.to_nat (Z.of_nat i / k * k))) by nia.
  unfold bind. rewrite Hs at 1 2.
  rewrite addDeltas_window; try done; try lia.
Qed.

Lemma wrap_add_inj p d d' :
  in_range d -> in_range d' -> p ⊕ d = p ⊕ d' -> d = d'.
Proof.
  unfold add, wrap, in_range, min_int, max_int. intros Hd Hd' H.
  Z.div_mod_to_equations. lia.
Qed.

Lemma deltaAt_in_range f rows (i : nat) : in_range (deltaAt f rows i).
Proof.
  destruct i; simpl; [|apply wrap_in_range].
  unfold in_range, min_int, max_int. lia.
Qed.
End DeltaWindow.

Section DeltaWindowExtras.
Import delta_encoding delta_spec.



(** X15.  The verifier detects a corrupted delta.  On an encoder built
    from rows with contiguous ids, overwriting any one entry of
    [deltaValueList] with a different 64-bit value makes
    [VerifyDeltaEncodingCorrectness] return false. *)
Theorem verifier_detects_corrupted_delta (rows : list Row) (j : nat) (d' : Z) :
  addressable rows -> Forall rowInRange rows -> contiguousIds rows ->
  in_range d' ->
  exists de : DeltaEncoding,
    built rows de
    /\ forall d : Z,
         deltaValueList de !! j = Some d -> d' <> d ->
         VerifyDeltaEncodingCorrectness
           (set_deltaValueList (<[j := d']> (deltaValueList de)) de)
         = Done (false,
                 set_deltaValueList (<[j := d']> (deltaValueList de)) de).
Proof.
  intros Haddr Hrange Hcontig Hd'.
  destruct (delta_built_state rows) as (de & Hb & Hinv & _).
  { unfold addressable, max_int in *. lia. }
  exists de. split; [done|]. intros d Hd Hne.
  pose proof (inv_ids _ _ Hinv) as Hids.
  pose proof (inv_original _ _ Hinv) as Horig.
  pose proof (inv_interval _ _ Hinv) as Hk.
  destruct (inv_deltaValue _ _ Hinv) as [Hlv Hdv].
  destruct (inv_deltaTs _ _ Hinv) as [Hlt _].
  destruct (inv_checkpointValues _ _ Hinv) as [Hlcv _].
  destruct (inv_checkpointTs _ _ Hinv) as [Hlct _].
  set (k := checkpointInterval de) in *.
  set (dvs' := <[j := d']> (deltaValueList de)).
  set (de' := set_deltaValueList dvs' de).
  assert (Hj : (j < length rows)%nat).
  { apply lookup_lt_Some in Hd. lia. }
  assert (Hnil : rows <> []) by (destruct rows; [simpl in Hj; lia|done]).
  destruct (decide (rows = [])) as [|_]; [done|].
  assert (Haddr' : addressable (idList de)).
  { unfold addressable in *. rewrite Hids. unfold len in *.
    by rewrite length_map. }
  (* every row of the table has its checkpoint *)
  assert (Hcp : forall i : nat, (i < length rows)%nat ->
            exists v t,
              checkpointValues de !! Z.to_nat (Z.of_nat i / k) = Some v
              /\ checkpointTs de !! Z.to_nat (Z.of_nat i / k) = Some t).
  { intros i Hi.
    assert (0 <= Z.of_nat i / k <= len rows / k).
    { split; [apply Z.div_pos; lia|]. apply Z.div_le_mono; unfold len; lia. }
    destruct (lookup_lt_is_Some_2 (checkpointValues de)
                (Z.to_nat (Z.of_nat i / k))) as [v Hv]; [unfold len in *; lia|].
    destruct (lookup_lt_is_Some_2 (checkpointTs de)
                (Z.to_nat (Z.of_nat i / k))) as [t Ht]; [unfold len in *; lia|].
    by exists v, t. }
  (* the table that the corrupted encoder reconstructs *)
  set (f := fun id : Z =>
              let i := Z.to_nat (id - 1) in
              {| ID := id;
                 Value := foldl Go.add
                            (default 0 (checkpointValues de
                                          !! Z.to_nat (Z.of_nat i / k)))
                            (window dvs' (Z.to_nat (Z.of_nat i / k * k)) i);
                 TS := foldl Go.add
                         (default 0 (checkpointTs de
                                       !! Z.to_nat (Z.of_nat i / k)))
                         (window (deltaTsList de)
                            (Z.to_nat (Z.of_nat i / k * k)) i) |}).
  assert (Hrow' : forall (i : nat) row, rows !! i = Some row ->
            ReconstructRow (ID row) de' = Done ((f (ID row), None), de')).
  { intros i row Hrow.
    assert (Hi : (i < length rows)%nat) by by apply lookup_lt_Some in Hrow.
    destruct (Hcp i Hi) as (v & t & Hv & Ht).
    rewrite (Hcontig i row Hrow).
    rewrite (ReconstructRow_window de' i v t); try done.
    - unfold f. replace (Z.to_nat (Z.of_nat i + 1 - 1)) with i by lia.
      fold k. by rewrite Hv, Ht.
    - simpl. rewrite Hids, length_map. done.
    - simpl. unfold dvs'. rewrite length_insert. lia.
    - simpl. lia. }
  assert (Htable : ReconstructTable de'
                   = Done ((map (fun row => f (ID row)) rows, None), de')).
  { unfold ReconstructTable, bind, get.
    change (idList de') with (idList de). rewrite Hids.
    rewrite (reconstructEach_map f).
    - by rewrite map_map.
    - intros id Hin. apply list_elem_of_fmap in Hin as (row & -> & Hin).
      apply list_elem_of_lookup in Hin as [i Hi]. by apply (Hrow' i). }
  unfold VerifyDeltaEncodingCorrectness. unfold bind at 1. rewrite Htable.
  unfold bind, get. change (originalRows de') with (originalRows de).
  rewrite Horig.
  pose proof (compareRows_map (fun row => f (ID row)) de' [] rows []
                Horig eq_refl Haddr) as Hcmp.
  change (compareRows (length rows) 0 (map (fun row => f (ID row)) rows) de'
          = Done (forallb (fun row => Row_eqb (f (ID row)) row) rows, de'))
    in Hcmp.
  rewrite Hcmp. do 2 f_equal.
  (* the row of index [j] differs *)
  destruct (lookup_lt_is_Some_2 rows j Hj) as [row Hrow].
  apply (forallb_false_elem _ _ row); [by apply list_elem_of_lookup_2 in Hrow|].
  destruct (Hcp j Hj) as (v & t & Hv & Ht).
  pose proof (ReconstructRow_window de j v t Hk Haddr'
                ltac:(rewrite Hids, length_map; lia) ltac:(lia) ltac:(lia)
                Hv Ht) as Hclosed.
  pose proof (ReconstructRow_exact rows de j row Hinv Haddr Hrange Hcontig Hrow)
    as Hexact.
  rewrite (Hcontig j row Hrow) in Hexact. rewrite Hexact in Hclosed.
  injection Hclosed as Hrw. apply (f_equal Value) in Hrw.
  cbn [Value] in Hrw. fold k in Hrw. rename Hrw into Hval.
  assert (Hstart : (Z.to_nat (Z.of_nat j / k * k) <= j)%nat).
  { pose proof (Z.mul_div_le (Z.of_nat j) k Hk).
    assert (0 <= Z.of_nat j / k) by (apply Z.div_pos; lia). nia. }
  rewrite (window_snoc _ _ _ d Hd Hstart), foldl_app in Hval. simpl in Hval.
  unfold Row_eqb, f. cbn [ID Value TS].
  rewrite (Hcontig j row Hrow).
  replace (Z.to_nat (Z.of_nat j + 1 - 1)) with j by lia.
  rewrite Hv. cbn [default]. unfold dvs'.
  rewrite (window_insert_last _ _ _ d d' Hd Hstart), foldl_app. simpl.
  destruct (Z.eqb_spec
              (foldl Go.add v
                 (take (j - Z.to_nat (Z.of_nat j / k * k))
                    (drop (Z.to_nat (Z.of_nat j / k * k)) (deltaValueList de)))
               ⊕ d') (Value row)) as [Heq|_].
  - exfalso. apply Hne. rewrite Hval in Heq.
    apply (wrap_add_inj _ _ _ Hd') in Heq; [done|].
    rewrite (Hdv j d Hd). apply deltaAt_in_range.
  - by rewrite andb_false_r.
Qed.

Lemma verifier_detects_corrupted_delta_witness :
  addressable testRows /\ Forall rowInRange testRows /\ contiguousIds testRows
  /\ in_range 999999
  /\ exists de : DeltaEncoding,
       built testRows de
       /\ VerifyDeltaEncodingCorrectness
            (set_deltaValueList (<[2%nat := 999999]> (deltaValueList de)) de)
          = Done (false,
                  set_deltaValueList (<[2%nat := 999999]> (deltaValueList de)) de).
Proof.
  assert (H : addressable testRows) by (unfold addressable; vm_compute; reflexivity).
  assert (Hd : in_range 999999) by (vm_compute; split; discriminate).
  split; [exact H|]. split; [exact testRows_in_range|].
  split; [exact testRows_contiguous|]. split; [exact Hd|].
  destruct (verifier_detects_corrupted_delta testRows 2 999999 H
              testRows_in_range testRows_contiguous Hd) as (de & Hb & Hbad).
  exists de. split; [exact Hb|]. apply (Hbad 10).
  - unfold built in Hb. rewrite built_delta_testRows in Hb.
    injection Hb as <-. reflexivity.
  - discriminate.
Defined.

(** X16.  An encoder whose [checkpointInterval] is 0, such as the zero
    value [DeltaEncoding{}], cannot be used: [AppendRow] panics with a
    division by zero on every row, and so does [ReconstructRow] on every
    row id in [1, len(idList)]. *)
Theorem zero_interval_panics (de : DeltaEncoding) :
  checkpointInterval de = 0 ->
  (forall row : Row, AppendRow row de = Panic DivideByZero)
  /\ (forall rowID : Z,
         1 <= rowID <= len (idList de) ->
         ReconstructRow rowID de = Panic DivideByZero).
Proof.
  intros Hk. split.
  - intros row. unfold AppendRow. unfold bind at 1, get.
    destruct (len (idList de) =? 0);
      cbv [bind modify ret rem panic]; simpl; by rewrite Hk.
  - intros rowID Hrow. unfold ReconstructRow, bind, get, quo, panic.
    destruct (Z.leb_spec rowID 0); [lia|].
    destruct (Z.gtb_spec rowID (len (idList de))); [lia|].
    simpl. by rewrite Hk.
Qed.

Lemma zero_interval_panics_witness :
  AppendRow {| ID := 1; Value := 10; TS := 1000 |} zeroDE = Panic DivideByZero.
Proof.
  exact (proj1 (zero_interval_panics zeroDE eq_refl)
               {| ID := 1; Value := 10; TS := 1000 |}).
Defined.
End DeltaWindowExtras.

(* ===================================================================== *)
(** * Delta encoder: the sizes that [PrintStats] reports                    *)
(* ===================================================================== *)

Section DeltaStats.
Import delta_encoding delta_spec.
Variable size : Z -> Z.

Lemma wrap_add_l a b : wrap (wrap a + b) = wrap (a + b).
Proof. unfold wrap. Z.div_mod_to_equations. lia. Qed.

Lemma wrap_add_r a b : wrap (a + wrap b) = wrap (a + b).
Proof. unfold wrap. Z.div_mod_to_equations. lia. Qed.

Lemma wrap_sub_both a b : wrap (wrap a - wrap b) = wrap (a - b).
Proof. unfold wrap. Z.div_mod_to_equations. lia. Qed.

Lemma varintSizeFrom_spec data total :
  wrap (varintSizeFrom size data total)
  = wrap (total + columnBytes size data).
Proof.
  revert total. induction data as [|v data IH]; intros total; simpl.
  - by rewrite Z.add_0_r.
  - rewrite IH. unfold add. rewrite wrap_add_l. f_equal. lia.
Qed.

Lemma varintSizeFrom_in_range data total :
  in_range total -> in_range (varintSizeFrom size data total).
Proof.
  revert total. induction data as [|v data IH]; intros total Ht; simpl; [done|].
  apply IH, wrap_in_range.
Qed.

Lemma varintEncodedSizeGeneric_spec data :
  varintEncodedSizeGeneric size data = wrap (columnBytes size data).
Proof.
  unfold varintEncodedSizeGeneric.
  rewrite <- (wrap_id (varintSizeFrom size data 0)).
  - by rewrite varintSizeFrom_spec.
  - apply varintSizeFrom_in_range. unfold in_range, min_int, max_int. lia.
Qed.

Lemma binarySizeFrom_spec rows total :
  wrap (binarySizeFrom size rows total)
  = wrap (total + columnBytes size (map ID rows)
                + columnBytes size (map Value rows)
                + columnBytes size (map TS rows)).
Proof.
  revert total. induction rows as [|row rows IH]; intros total; simpl.
  - f_equal. lia.
  - rewrite IH. unfold add.
    generalize (columnBytes size (map ID rows))
               (columnBytes size (map Value rows))
               (columnBytes size (map TS rows))
               (size (ID row)) (size (Value row)) (size (TS row)).
    intros. unfold wrap. Z.div_mod_to_equations. lia.
Qed.

Lemma binarySizeFrom_in_range rows total :
  in_range total -> in_range (binarySizeFrom size rows total).
Proof.
  revert total. induction rows as [|row rows IH]; intros total Ht; simpl; [done|].
  apply IH, wrap_in_range.
Qed.

Lemma binaryEncodedSize_spec rows :
  binaryEncodedSize size rows
  = wrap (columnBytes size (map ID rows)
          + columnBytes size (map Value rows)
          + columnBytes size (map TS rows)).
Proof.
  unfold binaryEncodedSize.
  rewrite <- (wrap_id (binarySizeFrom size rows 0)).
  - by rewrite binarySizeFrom_spec.
  - apply binarySizeFrom_in_range. unfold in_range, min_int, max_int. lia.
Qed.

(** X17.  What [PrintStats] reports after a sequence of [AppendRow]s, for
    any byte count [size] that [binary.PutVarint] returns: the compressed
    size adds up the ids and the two delta columns, the original size the
    ids, values and timestamps of the rows, and in the bytes saved the id
    column cancels: they are the bytes of the value and timestamp columns
    minus those of the two delta columns, in 64-bit arithmetic. *)
Theorem PrintStats_accounting (rows : list Row) :
  addressable rows ->
  exists de : DeltaEncoding,
    built rows de
    /\ PrintStats size de
       = Done ((wrap (columnBytes size (map ID rows)
                      + columnBytes size (deltaValueList de)
                      + columnBytes size (deltaTsList de)),
                wrap (columnBytes size (map ID rows)
                      + columnBytes size (map Value rows)
                      + columnBytes size (map TS rows)),
                wrap (columnBytes size (map Value rows)
                      + columnBytes size (map TS rows)
                      - columnBytes size (deltaValueList de)
                      - columnBytes size (deltaTsList de))), de).
Proof.
  intros Haddr.
  destruct (delta_built_state rows) as (de & Hb & Hinv & _).
  { unfold addressable, max_int in *. lia. }
  exists de. split; [done|].
  unfold PrintStats, bind, get, ret.
  rewrite (inv_ids _ _ Hinv), (inv_original _ _ Hinv).
  rewrite !varintEncodedSizeGeneric_spec, binaryEncodedSize_spec.
  unfold add, sub.
  generalize (columnBytes size (map ID rows))
             (columnBytes size (map Value rows))
             (columnBytes size (map TS rows))
             (columnBytes size (deltaValueList de))
             (columnBytes size (deltaTsList de)).
  intros ids vs ts dvs dts.
  assert (wrap (wrap (wrap ids + wrap dvs) + wrap dts) = wrap (ids + dvs + dts))
    as -> by (unfold wrap; Z.div_mod_to_equations; lia).
  assert (wrap (wrap (ids + vs + ts) - wrap (ids + dvs + dts))
          = wrap (vs + ts - dvs - dts))
    as -> by (unfold wrap; Z.div_mod_to_equations; lia).
  done.
Qed.
End DeltaStats.

Section DeltaStatsWitness.
Import delta_encoding delta_spec.

Lemma PrintStats_accounting_witness :
  addressable testRows
  /\ exists de : DeltaEncoding,
       built testRows de
       /\ PrintStats byteCount de
          = Done ((wrap (columnBytes byteCount (map ID testRows)
                         + columnBytes byteCount (deltaValueList de)
                         + columnBytes byteCount (deltaTsList de)),
                   wrap (columnBytes byteCount (map ID testRows)
                         + columnBytes byteCount (map Value testRows)
                         + columnBytes byteCount (map TS testRows)),
                   wrap (columnBytes byteCount (map Value testRows)
                         + columnBytes byteCount (map TS testRows)
                         - columnBytes byteCount (deltaValueList de)
                         - columnBytes byteCount (deltaTsList de))), de).
Proof.
  assert (H : addressable testRows) by (unfold addressable; vm_compute; reflexivity).
  split; [exact H|]. exact (PrintStats_accounting byteCount testRows H).
Defined.
End DeltaStatsWitness.
